(** * CesiumWindParticle: the vector field and the particle engine

    A shallow embedding of [src/Vector.ts], [src/Field.ts] and the
    simulation core of [src/CesiumParticles.ts], with the properties the
    specification states about them.

    Numbers.  A JavaScript [number] is modelled by [number]: an exact
    rational, or one of the three special values [NaN], [+Infinity],
    [-Infinity].  The arithmetic follows IEEE 754 on the special values
    (division by zero, [Infinity - Infinity], [0 * Infinity], comparisons
    with [NaN]); on finite values it is exact, so rounding and overflow are
    not modelled, and there is one zero (the sign of zero is the positive
    one).  [Math.sqrt] is exact on squares of rationals and rounded down on
    a binary grid elsewhere.

    Values.  A value that may be [undefined] or [null] is a [jsval]; a call
    that may throw returns an [outcome].  The dimensions [cols] and [rows]
    are natural numbers.  The canvas, the camera and [Math.random] belong
    to the host: the engine takes them as a [Host], and the draw step
    returns the lines it strokes instead of drawing them.  Warnings and
    log lines are left out. *)

From Stdlib Require Import ZArith QArith Qcanon Qround List String Bool Lia Lqa.
Import ListNotations.

(** ** JavaScript numbers *)

Module Num.

Inductive number : Type :=
| NaN
| PosInf
| NegInf
| Fin (q : Qc).

Definition ofZ (z : Z) : number := Fin (Q2Qc (inject_Z z)).
Definition ofNat (n : nat) : number := ofZ (Z.of_nat n).
Definition ofQ (q : Q) : number := Fin (Q2Qc q).

Definition zero : number := ofZ 0.
Definition one : number := ofZ 1.

(** The sign of a rational, as a [comparison] with zero. *)
Definition sgn (q : Qc) : comparison := (q ?= Q2Qc 0)%Qc.

Definition neg (a : number) : number :=
  match a with
  | NaN => NaN
  | PosInf => NegInf
  | NegInf => PosInf
  | Fin q => Fin (- q)%Qc
  end.

Definition add (a b : number) : number :=
  match a, b with
  | NaN, _ | _, NaN => NaN
  | PosInf, NegInf | NegInf, PosInf => NaN
  | PosInf, _ | _, PosInf => PosInf
  | NegInf, _ | _, NegInf => NegInf
  | Fin x, Fin y => Fin (x + y)%Qc
  end.

Definition sub (a b : number) : number := add a (neg b).

(** The infinity whose sign is the product of the signs [s] and [t];
    [NaN] when one factor is zero. *)
Definition inf_of_signs (s t : comparison) : number :=
  match s, t with
  | Eq, _ | _, Eq => NaN
  | Gt, Gt | Lt, Lt => PosInf
  | _, _ => NegInf
  end.

Definition sign_of (a : number) : comparison :=
  match a with
  | NaN => Eq
  | PosInf => Gt
  | NegInf => Lt
  | Fin q => sgn q
  end.

Definition mul (a b : number) : number :=
  match a, b with
  | NaN, _ | _, NaN => NaN
  | Fin x, Fin y => Fin (x * y)%Qc
  | _, _ => inf_of_signs (sign_of a) (sign_of b)
  end.

(** [a / b].  A finite non-zero number divided by zero is the infinity of
    its sign, [0 / 0] is [NaN], and a finite number divided by an infinity
    is zero. *)
Definition div (a b : number) : number :=
  match a, b with
  | NaN, _ | _, NaN => NaN
  | Fin x, Fin y =>
      match sgn y with
      | Eq => inf_of_signs (sgn x) Gt
      | _ => Fin (x / y)%Qc
      end
  | Fin _, _ => zero
  | _, Fin y =>
      match sgn y with
      | Eq => a
      | s => inf_of_signs (sign_of a) s
      end
  | _, _ => NaN
  end.

(** Comparisons: every comparison with [NaN] is false. *)
Definition ltb (a b : number) : bool :=
  match a, b with
  | NaN, _ | _, NaN => false
  | _, NegInf => false
  | NegInf, _ => true
  | PosInf, _ => false
  | Fin _, PosInf => true
  | Fin x, Fin y => match (x ?= y)%Qc with Lt => true | _ => false end
  end.

Definition eqb (a b : number) : bool :=
  match a, b with
  | PosInf, PosInf | NegInf, NegInf => true
  | Fin x, Fin y => match (x ?= y)%Qc with Eq => true | _ => false end
  | _, _ => false
  end.

Definition leb (a b : number) : bool := ltb a b || eqb a b.
Definition gtb (a b : number) : bool := ltb b a.
Definition geb (a b : number) : bool := leb b a.

(** [x !== y] on numbers. *)
Definition neqb (a b : number) : bool := negb (eqb a b).

(** ToBoolean: [0] and [NaN] are the falsy numbers. *)
Definition truthy (a : number) : bool :=
  match a with
  | NaN => false
  | Fin q => match sgn q with Eq => false | _ => true end
  | _ => true
  end.

Definition floor (a : number) : number :=
  match a with
  | Fin q => ofZ (Qfloor q)
  | _ => a
  end.

Definition ceil (a : number) : number :=
  match a with
  | Fin q => ofZ (Qceiling q)
  | _ => a
  end.

(** [Math.round]: the integer nearest to [a], ties towards [+Infinity]. *)
Definition round (a : number) : number :=
  match a with
  | Fin q => ofZ (Qfloor (q + Q2Qc (1 # 2))%Qc)
  | _ => a
  end.

Definition min (a b : number) : number :=
  match a, b with
  | NaN, _ | _, NaN => NaN
  | _, _ => if ltb b a then b else a
  end.

Definition max (a b : number) : number :=
  match a, b with
  | NaN, _ | _, NaN => NaN
  | _, _ => if ltb a b then b else a
  end.

(** Binary digits kept by [sqrt] below the unit of the denominator. *)
Definition sqrt_digits : Z := 64.

(** [Math.sqrt]: [sqrt (n/d) = sqrt (n*d) / d], the integer square root
    being taken after scaling by [4 ^ sqrt_digits]. *)
Definition sqrt (a : number) : number :=
  match a with
  | NaN | NegInf => NaN
  | PosInf => PosInf
  | Fin q =>
      match sgn q with
      | Lt => NaN
      | _ =>
          let n := Qnum q in
          let d := Z.pos (Qden q) in
          let s := Z.pow 2 sqrt_digits in
          ofQ (Qmake (Z.sqrt (n * d * (s * s))) (Z.to_pos (d * s)))
      end
  end.

(** ToInt32, the conversion behind [x | 0]: truncate towards zero, reduce
    modulo [2^32], read as a signed 32-bit integer. *)
Definition toInt32 (a : number) : number :=
  match a with
  | Fin q =>
      let t := Z.quot (Qnum q) (Z.pos (Qden q)) in
      let w := Z.modulo t (2 ^ 32) in
      ofZ (if Z.ltb w (2 ^ 31) then w else w - 2 ^ 32)
  | _ => zero
  end.

(** An array index: the number is a non-negative integer. *)
Definition as_index (a : number) : option nat :=
  match a with
  | Fin q =>
      if (Z.eqb (Z.pos (Qden q)) 1 && Z.leb 0 (Qnum q))%bool
      then Some (Z.to_nat (Qnum q)) else None
  | _ => None
  end.

Definition is_finite (a : number) : Prop :=
  match a with Fin _ => True | _ => False end.

Definition is_nan (a : number) : bool :=
  match a with NaN => true | _ => false end.

End Num.

Import Num.

Declare Scope num_scope.
Delimit Scope num_scope with num.
Bind Scope num_scope with number.
Infix "+" := add : num_scope.
Infix "-" := sub : num_scope.
Infix "*" := mul : num_scope.
Infix "/" := div : num_scope.
Infix "<?" := ltb : num_scope.
Infix "<=?" := leb : num_scope.
Infix ">?" := gtb : num_scope.
Infix ">=?" := geb : num_scope.
Infix "=?" := eqb : num_scope.

(** [floorMod a n = a - n * floor (a / n)] *)
Definition floorMod (a n : number) : number :=
  (a - n * floor (a / n))%num.


(** ** JavaScript values and exceptions *)

(** A value that may be [undefined] or [null]. *)
Inductive jsval (A : Type) : Type :=
| Undefined
| Null
| Val (a : A).
Arguments Undefined {A}.
Arguments Null {A}.
Arguments Val {A} a.


(** The result of a call that may throw. *)
Inductive outcome (A : Type) : Type :=
| Ok (a : A)
| Throw (e : string).
Arguments Ok {A} a.
Arguments Throw {A} e.

Definition bind {A B : Type} (c : outcome A) (k : A -> outcome B) : outcome B :=
  match c with
  | Ok a => k a
  | Throw e => Throw e
  end.

Notation "x <- c ;; k" := (bind c (fun x => k))
  (at level 61, c at next level, right associativity).

Definition TypeError : string := "TypeError"%string.

(** [arr[i]] for a natural index: [undefined] out of range. *)
Definition item {A : Type} (arr : list (jsval A)) (i : nat) : jsval A :=
  match nth_error arr i with
  | Some x => x
  | None => Undefined
  end.

(** [arr[n]] for a number: only a non-negative integer names an element. *)
Definition item_at {A : Type} (arr : list (jsval A)) (n : number) : jsval A :=
  match as_index n with
  | Some i => item arr i
  | None => Undefined
  end.

(** ** Vector.ts *)

Record Vector : Type := mkVector { u : number; v : number; m : number }.

(** [magnitude()]: [Math.sqrt(u * u + v * v)] *)
Definition magnitude (vec : Vector) : number :=
  sqrt (u vec * u vec + v vec * v vec)%num.

(** [new Vector(u, v)]: the magnitude is computed once, at construction. *)
Definition Vector_new (u0 v0 : number) : Vector :=
  let vec := mkVector u0 v0 NaN in
  mkVector u0 v0 (magnitude vec).

(** ** Field.ts *)

Record ConstructorOptions : Type := mkOptions {
  o_xmin : number;
  o_xmax : number;
  o_ymin : number;
  o_ymax : number;
  o_cols : nat;
  o_rows : nat;
  o_us : list (jsval number);
  o_vs : list (jsval number);
  o_deltaX : number;
  o_deltaY : number;
  o_wrappedX : option bool
}.

Definition Row : Type := list (jsval Vector).
Definition Grid : Type := list Row.

Record Field : Type := mkField {
  xmin : number;
  xmax : number;
  ymin : number;
  ymax : number;
  cols : nat;
  rows : nat;
  us : list (jsval number);
  vs : list (jsval number);
  deltaX : number;
  deltaY : number;
  grid : Grid;
  isContinuous : bool;
  wrappedX : bool;
  range : number * number
}.

(** One cell of [buildGrid]: [us[p]], [vs[p]] give a vector when both are
    valid, [null] otherwise. *)
Definition buildCell (us0 vs0 : list (jsval number)) (p : nat) : jsval Vector :=
  match item us0 p, item vs0 p with
  | Val u0, Val v0 => Val (Vector_new u0 v0)
  | _, _ => Null
  end.

(** The inner loop of [buildGrid]: [n] cells, read from position [p] on. *)
Fixpoint buildRow (us0 vs0 : list (jsval number)) (n p : nat) : Row :=
  match n with
  | O => []
  | S n' => buildCell us0 vs0 p :: buildRow us0 vs0 n' (S p)
  end.

(** The outer loop of [buildGrid]: [r] rows of [c] cells, [p] running on
    from row to row; a continuous grid repeats column 0 at the end. *)
Fixpoint buildRows (us0 vs0 : list (jsval number)) (continuous : bool)
    (r c p : nat) : Grid :=
  match r with
  | O => []
  | S r' =>
      let row := buildRow us0 vs0 c p in
      let row' := if continuous then row ++ [item row 0] else row in
      row' :: buildRows us0 vs0 continuous r' c (p + c)
  end.

Definition buildGrid (us0 vs0 : list (jsval number)) (continuous : bool)
    (r c : nat) : Grid :=
  buildRows us0 vs0 continuous r c 0.

(** The body of the two loops of [calculateRange] at one cell.  [min] and
    [max] start as numbers and stay numbers, so of the three branches of
    the source only the last one ([min === undefined] and
    [max === undefined] are false) is ever taken. *)
Definition rangeCell (acc : number * number) (vec : jsval Vector)
  : outcome (number * number) :=
  match vec with
  | Null => Ok acc
  | Undefined => Throw TypeError
  | Val w =>
      let val := if truthy (m w) then m w else magnitude w in
      Ok (min val (fst acc), max val (snd acc))
  end.

Fixpoint rangeRow (row : Row) (ixs : list nat) (acc : number * number)
  : outcome (number * number) :=
  match ixs with
  | [] => Ok acc
  | i :: ixs' => acc' <- rangeCell acc (item row i) ;; rangeRow row ixs' acc'
  end.

Fixpoint rangeRows (g : Grid) (jxs : list nat) (c : nat)
    (acc : number * number) : outcome (number * number) :=
  match jxs with
  | [] => Ok acc
  | j :: js' =>
      match nth_error g j with
      | None => Throw TypeError
      | Some row =>
          acc' <- rangeRow row (seq 0 c) acc ;; rangeRows g js' c acc'
      end
  end.

(** [calculateRange()]: throws when there is no first row. *)
Definition calculateRange (g : Grid) : outcome (number * number) :=
  match g with
  | [] => Throw "grid required"
  | row0 :: _ =>
      rangeRows g (seq 0 (List.length g)) (List.length row0) (PosInf, NegInf)
  end.

(** The constructor.  The comparison of the declared [cols] and [rows] with
    the ones computed from the bounds only prints a warning. *)
Definition Field_new (o : ConstructorOptions) : outcome Field :=
  let flipY := (o_deltaY o <? zero)%num && (o_ymin o <? o_ymax o)%num in
  let ymin0 := if flipY then o_ymin o else min (o_ymax o) (o_ymin o) in
  let ymax0 := if flipY then o_ymax o else max (o_ymax o) (o_ymin o) in
  let continuous := (floor (ofNat (o_cols o) * o_deltaX o) >=? ofZ 360)%num in
  let wrapped :=
    match o_wrappedX o with
    | Some true => true
    | _ => (o_xmax o >? ofZ 180)%num
    end in
  let g := buildGrid (o_us o) (o_vs o) continuous (o_rows o) (o_cols o) in
  r <- calculateRange g ;;
  Ok (mkField (o_xmin o) (o_xmax o) ymin0 ymax0 (o_cols o) (o_rows o)
        (o_us o) (o_vs o) (o_deltaX o) (o_deltaY o) g continuous wrapped r).

(** [release()] *)
Definition release (f : Field) : Field :=
  mkField (xmin f) (xmax f) (ymin f) (ymax f) (cols f) (rows f) (us f) (vs f)
    (deltaX f) (deltaY f) [] (isContinuous f) (wrappedX f) (range f).

Definition bilinearInterpolateVector (x y : number)
    (g00 g10 g01 g11 : Vector) : Vector :=
  let rx := (one - x)%num in
  let ry := (one - y)%num in
  let a := (rx * ry)%num in
  let b := (x * ry)%num in
  let c := (rx * y)%num in
  let d := (x * y)%num in
  let u0 := (u g00 * a + u g10 * b + u g01 * c + u g11 * d)%num in
  let v0 := (v g00 * a + v g10 * b + v g01 * c + v g11 * d)%num in
  Vector_new u0 v0.

Definition getWrappedLongitudes (f : Field) : number * number :=
  if wrappedX f then
    if isContinuous f then (ofZ (-180), ofZ 180)
    else ((xmin f - ofZ 360)%num, (xmax f - ofZ 360)%num)
  else (xmin f, xmax f).

Definition contains (f : Field) (lon lat : number) : bool :=
  let '(xmin0, xmax0) := getWrappedLongitudes f in
  let longitudeIn := (lon >=? xmin0)%num && (lon <=? xmax0)%num in
  let latitudeIn :=
    if (deltaY f >=? zero)%num
    then (lat >=? ymin f)%num && (lat <=? ymax f)%num
    else (lat >=? ymax f)%num && (lat <=? ymin f)%num in
  longitudeIn && latitudeIn.

Definition getDecimalIndexes (f : Field) (lon lat : number) : number * number :=
  let i := (floorMod (lon - xmin f) (ofZ 360) / deltaX f)%num in
  let j := ((ymax f - lat) / deltaY f)%num in
  (i, j).

Definition clampColumnIndex (f : Field) (ii : number) : number :=
  let i := if (ii <? zero)%num then zero else ii in
  let maxCol := (ofNat (cols f) - one)%num in
  if (ii >? maxCol)%num then maxCol else i.

Definition clampRowIndex (f : Field) (jj : number) : number :=
  let j := if (jj <? zero)%num then zero else jj in
  let maxRow := (ofNat (rows f) - one)%num in
  if (jj >? maxRow)%num then maxRow else j.

(** [this.grid[j]] for a number [j]. *)
Definition grid_row (f : Field) (j : number) : option Row :=
  match as_index j with
  | Some n => nth_error (grid f) n
  | None => None
  end.

(** [valueAtIndexes(i, j)]: [this.grid[j][i]]; reading a column of a row
    that does not exist throws. *)
Definition valueAtIndexes (f : Field) (i j : number) : outcome (jsval Vector) :=
  match grid_row f j with
  | Some row => Ok (item_at row i)
  | None => Throw TypeError
  end.

Definition valueAt (f : Field) (lon lat : number) : outcome (jsval Vector) :=
  if negb (contains f lon lat) then Ok Null
  else
    let indexes := getDecimalIndexes f lon lat in
    let ii := floor (fst indexes) in
    let jj := floor (snd indexes) in
    let ci := clampColumnIndex f ii in
    let cj := clampRowIndex f jj in
    valueAtIndexes f ci cj.

(** [hasValueAt]: [value !== null], which [undefined] passes. *)
Definition hasValueAt (f : Field) (lon lat : number) : outcome bool :=
  value <- valueAt f lon lat ;;
  Ok (match value with Null => false | _ => true end).

Definition getFourSurroundingIndexes (f : Field) (i j : number)
  : number * number * number * number :=
  let fi := floor i in
  let ci := (fi + one)%num in
  let ci := if isContinuous f && (ci >=? ofNat (cols f))%num then zero else ci in
  let ci := clampColumnIndex f ci in
  let fj := clampRowIndex f (floor j) in
  let cj := clampRowIndex f (fj + one)%num in
  (fi, ci, fj, cj).

Definition getFourSurroundingValues (f : Field) (fi ci fj cj : number)
  : option (Vector * Vector * Vector * Vector) :=
  match grid_row f fj with
  | Some row =>
      match item_at row fi, item_at row ci, grid_row f cj with
      | Val g00, Val g10, Some row' =>
          match item_at row' fi, item_at row' ci with
          | Val g01, Val g11 => Some (g00, g10, g01, g11)
          | _, _ => None
          end
      | _, _, _ => None
      end
  | None => None
  end.

Definition interpolatePoint (f : Field) (i j : number) : option Vector :=
  let '(fi, ci, fj, cj) := getFourSurroundingIndexes f i j in
  match getFourSurroundingValues f fi ci fj cj with
  | Some (g00, g10, g01, g11) =>
      Some (bilinearInterpolateVector (i - fi)%num (j - fj)%num g00 g10 g01 g11)
  | None => None
  end.

Definition interpolatedValueAt (f : Field) (lon lat : number) : option Vector :=
  if negb (contains f lon lat) then None
  else
    let '(i, j) := getDecimalIndexes f lon lat in
    interpolatePoint f i j.

Definition longitudeAtX (f : Field) (i : number) : number :=
  let halfXPixel := (deltaX f / ofZ 2)%num in
  let lon := (xmin f + halfXPixel + i * deltaX f)%num in
  if wrappedX f then
    if (lon >? ofZ 180)%num then (lon - ofZ 360)%num else lon
  else lon.

Definition latitudeAtY (f : Field) (j : number) : number :=
  let halfYPixel := (deltaY f / ofZ 2)%num in
  (ymax f - halfYPixel - j * deltaY f)%num.

Definition lonLatAtIndexes (f : Field) (i j : number) : number * number :=
  (longitudeAtX f i, latitudeAtY f j).

(** The field of the specification's example. *)
Definition exampleOptions : ConstructorOptions :=
  mkOptions (ofZ 0) (ofZ 2) (ofZ 0) (ofZ 2) 2 2
    [Val (ofZ 1); Val (ofZ 0); Val (ofZ 0); Val (ofZ (-1))]
    [Val (ofZ 0); Val (ofZ 1); Val (ofZ (-1)); Val (ofZ 0)]
    (ofZ 1) (ofZ 1) None.

(** ** CesiumParticles.ts *)

(** Modelled from the spec: the [Particle] type ([Particle.ts] is imported
    by the sources and not among them).  The specification's
    [ParticleState] is [{x, y, xt, yt, age, m}] with [xt], [yt] and [m]
    possibly absent. *)
Record Particle : Type := mkParticle {
  p_x : number;
  p_y : number;
  p_xt : jsval number;
  p_yt : jsval number;
  p_age : number;
  p_m : jsval number
}.

(** [colorScale: string | string[]] *)
Inductive ColorScale : Type :=
| SingleColor (c : string)
| ColorList (cs : list string).

Record ParticleOptions : Type := mkParticleOptions {
  globalAlpha : number;
  lineWidth : number;
  colorScale : ColorScale;
  velocityScale : number;
  maxAge : number;
  paths : nat;
  frameRate : number
}.

(** What the engine takes from its host: the size of the canvas, the
    camera-dependent projections, the occlusion test, and the sequence of
    values that successive calls of [Math.random()] return. *)
Record Host : Type := mkHost {
  canvas_width : number;
  canvas_height : number;
  unproject : number * number -> option (number * number);
  project : number * number -> option (number * number);
  intersectsCoordinate : number * number -> bool;
  random : nat -> number
}.

Definition indexFor (m0 min0 max0 : number) (cs : list string) : number :=
  let last := (ofNat (List.length cs) - one)%num in
  max zero (min last (round ((m0 - min0) / (max0 - min0) * last)%num)).

(** ToNumber and ToBoolean of a possibly absent number. *)
Definition toNumber (a : jsval number) : number :=
  match a with
  | Undefined => NaN
  | Null => zero
  | Val n => n
  end.

Definition present (a : jsval number) : bool :=
  match a with
  | Val n => truthy n
  | _ => false
  end.

(** [cs[n]] on an array of strings. *)
Definition color_at (cs : list string) (n : number) : jsval string :=
  match as_index n with
  | Some i =>
      match nth_error cs i with
      | Some c => Val c
      | None => Undefined
      end
  | None => Undefined
  end.

(** [a || b] on numbers. *)
Definition orElse (a b : number) : number := if truthy a then a else b.

(** [Field.assignRandomPosition]; [k] counts the calls of [Math.random()]
    made so far. *)
Definition assignRandomPosition (f : Field) (h : Host) (k : nat)
    (p : Particle) (width height : number) : Particle * nat :=
  let i := toInt32 (random h k * orElse width (ofNat (cols f)))%num in
  let j := toInt32 (random h (S k) * orElse height (ofNat (rows f)))%num in
  match unproject h (i, j) with
  | Some (cx, cy) =>
      (mkParticle cx cy (p_xt p) (p_yt p) (p_age p) (p_m p), S (S k))
  | None =>
      (mkParticle (longitudeAtX f i) (latitudeAtY f j)
         (p_xt p) (p_yt p) (p_age p) (p_m p), S (S k))
  end.

Definition set_age (p : Particle) (a : number) : Particle :=
  mkParticle (p_x p) (p_y p) (p_xt p) (p_yt p) a (p_m p).

(** The first statement of the loop body of [moveParticles]: a particle
    older than [maxAge] restarts at age 0 on a random position. *)
Definition recycle (f : Field) (h : Host) (o : ParticleOptions) (k : nat)
    (p : Particle) : Particle * nat :=
  if (p_age p >? maxAge o)%num
  then assignRandomPosition f h k (set_age p zero)
         (canvas_width h) (canvas_height h)
  else (p, k).

(** The rest of the loop body: sample, advect, stage or move, age. *)
Definition advect (f : Field) (o : ParticleOptions) (p : Particle)
  : outcome Particle :=
  let x := p_x p in
  let y := p_y p in
  p' <-
    match interpolatedValueAt f x y with
    | None => Ok (set_age p (maxAge o))
    | Some vector =>
        let xt := (x + u vector * velocityScale o)%num in
        let yt := (y + v vector * velocityScale o)%num in
        has <- hasValueAt f xt yt ;;
        if has : bool
        then Ok (mkParticle x y (Val xt) (Val yt) (p_age p) (Val (m vector)))
        else Ok (mkParticle xt yt (p_xt p) (p_yt p) (maxAge o) (p_m p))
    end ;;
  Ok (set_age p' (p_age p' + one)%num).

(** One iteration of the loop of [moveParticles]. *)
Definition moveParticle (f : Field) (h : Host) (o : ParticleOptions)
    (k : nat) (p : Particle) : outcome (Particle * nat) :=
  let '(p1, k1) := recycle f h o k p in
  p2 <- advect f o p1 ;;
  Ok (p2, k1).

Fixpoint moveParticles (f : Field) (h : Host) (o : ParticleOptions)
    (k : nat) (ps : list Particle) : outcome (list Particle * nat) :=
  match ps with
  | [] => Ok ([], k)
  | p :: ps' =>
      r <- moveParticle f h o k p ;;
      rs <- moveParticles f h o (snd r) ps' ;;
      Ok (fst r :: fst rs, snd rs)
  end.

(** A stroked line: its two end points on the screen and the value
    assigned to [strokeStyle]. *)
Record Segment : Type := mkSegment {
  seg_from : number * number;
  seg_to : number * number;
  seg_style : jsval string
}.

Definition strokeStyleFor (o : ParticleOptions) (p : Particle)
    (min0 max0 : number) : jsval string :=
  match colorScale o with
  | ColorList cs => color_at cs (indexFor (toNumber (p_m p)) min0 max0 cs)
  | SingleColor c => Val c
  end.

(** [drawCoordsParticle]: the particle after the call, and the line that
    was stroked, if any. *)
Definition drawCoordsParticle (h : Host) (o : ParticleOptions)
    (p : Particle) (min0 max0 : number) : Particle * option Segment :=
  let source := (p_x p, p_y p) in
  let target := (toNumber (p_xt p), toNumber (p_yt p)) in
  if intersectsCoordinate h target && (p_age p <=? maxAge o)%num then
    match project h source, project h target with
    | Some pointPrev, Some pointNext =>
        (mkParticle (fst target) (snd target) (p_xt p) (p_yt p)
           (p_age p) (p_m p),
         Some (mkSegment pointPrev pointNext (strokeStyleFor o p min0 max0)))
    | _, _ => (p, None)
    end
  else (p, None).

(** One iteration of the loop of [drawParticles]. *)
Definition drawParticle (h : Host) (o : ParticleOptions) (min0 max0 : number)
    (p : Particle) : Particle * option Segment :=
  if negb (present (p_xt p)) then (p, None)
  else if negb (present (p_yt p)) then (p, None)
  else drawCoordsParticle h o p min0 max0.

Fixpoint drawParticles_loop (h : Host) (o : ParticleOptions)
    (min0 max0 : number) (ps : list Particle)
  : list Particle * list Segment :=
  match ps with
  | [] => ([], [])
  | p :: ps' =>
      let '(p', s) := drawParticle h o min0 max0 p in
      let '(qs, ss) := drawParticles_loop h o min0 max0 ps' in
      (p' :: qs, match s with Some sg => sg :: ss | None => ss end)
  end.

Definition drawParticles (f : Field) (h : Host) (o : ParticleOptions)
    (ps : list Particle) : list Particle * list Segment :=
  drawParticles_loop h o (fst (range f)) (snd (range f)) ps.

(** [render()]: one tick. *)
Definition render (f : Field) (h : Host) (o : ParticleOptions) (k : nat)
    (ps : list Particle) : outcome (list Particle * list Segment * nat) :=
  r <- moveParticles f h o k ps ;;
  Ok (drawParticles f h o (fst r), snd r).

(** The field that the constructor builds from [exampleOptions]:

<<
      column 0   column 1
row 0  ( 1, 0)   ( 0, 1)
row 1  ( 0,-1)   (-1, 0)
>> *)
Definition exampleField : Field :=
  mkField (ofZ 0) (ofZ 2) (ofZ 0) (ofZ 2) 2 2
    (o_us exampleOptions) (o_vs exampleOptions) (ofZ 1) (ofZ 1)
    [[Val (Vector_new (ofZ 1) (ofZ 0)); Val (Vector_new (ofZ 0) (ofZ 1))];
     [Val (Vector_new (ofZ 0) (ofZ (-1))); Val (Vector_new (ofZ (-1)) (ofZ 0))]]
    false false (ofZ 1, ofZ 1).

(** ** The specification's words, and data for the examples *)

(** The cell in column [i] of row [j], [undefined] when there is no such
    row or no such column. *)
Definition corner (f : Field) (i j : number) : jsval Vector :=
  match grid_row f j with
  | Some row => item_at row i
  | None => Undefined
  end.

(** The bilinear blend as the specification words it: weights
    [a = (1-x)(1-y)], [b = x(1-y)], [c = (1-x)y], [d = xy]; [u] and [v] are
    the weighted sums of the components, and the magnitude is recomputed
    from them. *)
Definition bilinearBlend_spec (x y : number) (g00 g10 g01 g11 : Vector) : Vector :=
  let a := ((one - x) * (one - y))%num in
  let b := (x * (one - y))%num in
  let c := ((one - x) * y)%num in
  let d := (x * y)%num in
  let bu := (u g00 * a + u g10 * b + u g01 * c + u g11 * d)%num in
  let bv := (v g00 * a + v g10 * b + v g01 * c + v g11 * d)%num in
  mkVector bu bv (sqrt (bu * bu + bv * bv)%num).

(** An index brought into the range from 0 to [last]: above [last] it is
    [last], below 0 it is 0, and every other number, [NaN] included, is
    kept. *)
Definition clampTo (last x : number) : number :=
  if (x >? last)%num then last else if (x <? zero)%num then zero else x.

(** The column east of the floor column [fi]: [fi + 1], replaced by
    column 0 once it reaches [cols] in a continuous grid, and then brought
    into the columns of the grid. *)
Definition eastColumn (f : Field) (fi : number) : number :=
  clampTo (ofNat (cols f) - one)%num
    (if isContinuous f && (fi + one >=? ofNat (cols f))%num then zero
     else (fi + one)%num).

(** The row of the grid that a decimal row index [j] falls in, and the row
    south of a row [fj]. *)
Definition floorRow (f : Field) (j : number) : number :=
  clampTo (ofNat (rows f) - one)%num (floor j).

Definition southRow (f : Field) (fj : number) : number :=
  clampTo (ofNat (rows f) - one)%num (fj + one)%num.

(** A host that seeds every particle at [(0, 2)], the node of column 0,
    row 0 of the example field, projects a coordinate to itself and sees
    every point. *)
Definition exampleHost : Host :=
  mkHost (ofZ 2) (ofZ 2)
    (fun _ => Some (ofZ 0, ofZ 2))
    (fun c => Some c)
    (fun _ => true)
    (fun _ => ofQ (1 # 2)).

Definition exampleScale : list string := ["blue"; "green"; "red"]%string.

(** Engine options with one colour, [maxAge = 60] and the given velocity
    scale. *)
Definition exampleEngine (scale : number) : ParticleOptions :=
  mkParticleOptions (ofQ (9 # 10)) (ofZ 3) (SingleColor "#fff")
    scale (ofZ 60) 1 (ofZ 20).

(** A particle of age 0 on the grid node of column 1, row 1, where the
    field is [(-1, 0)], and a particle of age 61 that a tick recycles. *)
Definition nodeParticle : Particle :=
  mkParticle (ofZ 1) (ofZ 1) Undefined Undefined (ofZ 0) Undefined.

Definition agedParticle : Particle :=
  mkParticle (ofZ 1) (ofZ 1) Undefined Undefined (ofZ 61) Undefined.

(** The example grid declared with a negative [deltaY] and with [ymin]
    above [ymax]. *)
Definition flippedOptions : ConstructorOptions :=
  mkOptions (ofZ 0) (ofZ 2) (ofZ 2) (ofZ 0) 2 2
    (o_us exampleOptions) (o_vs exampleOptions) (ofZ 1) (ofZ (-1)) None.

(** The range loop over a list of cells that are all present, as a fold:
    what [calculateRange] computes on a grid whose rows have the length of
    the first one. *)
Definition rangeFold (cells : list (jsval Vector)) (acc : number * number)
  : number * number :=
  fold_left
    (fun a c =>
       match c with
       | Val w =>
           let val := if truthy (m w) then m w else magnitude w in
           (min val (fst a), max val (snd a))
       | _ => a
       end)
    cells acc.

(** A grid of one cell, and that cell empty. *)
Definition emptyOptions : ConstructorOptions :=
  mkOptions (ofZ 0) (ofZ 1) (ofZ 0) (ofZ 1) 1 1 [Null] [Null]
    (ofZ 1) (ofZ 1) None.

(** Options that declare no row. *)
Definition rowlessOptions : ConstructorOptions :=
  mkOptions (ofZ 0) (ofZ 2) (ofZ 0) (ofZ 0) 2 0 [] [] (ofZ 1) (ofZ 1) None.

(** ** The rest of the sources *)

(** [a % n]: the remainder of the division that truncates, with the sign
    of [a]; [NaN] when [n] is zero or [a] is infinite. *)
Definition rem (a n : number) : number :=
  match a, n with
  | Fin x, Fin y =>
      match sgn y with
      | Eq => NaN
      | _ =>
          let q := (x / y)%Qc in
          let t := Z.quot (Qnum q) (Z.pos (Qden q)) in
          Fin (x - y * Q2Qc (inject_Z t))%Qc
      end
  | Fin _, PosInf | Fin _, NegInf => a
  | _, _ => NaN
  end.

(** [extent()] *)
Definition extent (f : Field) : list number :=
  [xmin f; ymin f; xmax f; ymax f].

(** [getRandomAge()]: one call of [Math.random()]. *)
Definition getRandomAge (h : Host) (o : ParticleOptions) (k : nat) : number :=
  floor (random h k * maxAge o)%num.

(** The loop of [prepareParticles]: [n] particles, each with a random age,
    no staged target, and a random position. *)
Fixpoint prepareParticles_loop (f : Field) (h : Host) (o : ParticleOptions)
    (n k : nat) : list Particle * nat :=
  match n with
  | O => ([], k)
  | S n' =>
      let particle :=
        mkParticle zero zero Undefined Undefined (getRandomAge h o k)
          Undefined in
      let '(p, k1) :=
        assignRandomPosition f h (S k) particle
          (canvas_width h) (canvas_height h) in
      let '(ps, k2) := prepareParticles_loop f h o n' k1 in
      (p :: ps, k2)
  end.

Definition prepareParticles (f : Field) (h : Host) (o : ParticleOptions)
    (k : nat) : list Particle * nat :=
  prepareParticles_loop f h o (paths o) k.

(** [animate()] at the time [now], [then0] being the time kept in
    [_then]: the new [_then], and whether [render()] was called.
    Scheduling the next call belongs to the host. *)
Definition animate (o : ParticleOptions) (then0 now : number) : number * bool :=
  let delta := (now - then0)%num in
  if (delta >? frameRate o)%num
  then ((now - rem delta (frameRate o))%num, true)
  else (then0, false).

(** A record of a GFS file. *)
Record GFSHeader : Type := mkGFSHeader {
  la1 : number;
  la2 : number;
  lo1 : number;
  lo2 : number;
  dx : number;
  dy : number;
  nx : nat;
  ny : nat;
  parameterCategory : number;
  parameterNumber : number
}.

Record GFSRecord : Type := mkGFSRecord {
  header : GFSHeader;
  data : list (jsval number)
}.

(** The [switch] of [createFieldFromGFS].  The string
    [parameterCategory + "," + parameterNumber] is ["1,2"] or ["2,2"] when
    the category is the number 1 or 2 and the number is 2. *)
Definition isUComponent (r : GFSRecord) : bool :=
  ((parameterCategory (header r) =? ofZ 1)%num
   || (parameterCategory (header r) =? ofZ 2)%num)
  && (parameterNumber (header r) =? ofZ 2)%num.

Definition isVComponent (r : GFSRecord) : bool :=
  ((parameterCategory (header r) =? ofZ 1)%num
   || (parameterCategory (header r) =? ofZ 2)%num)
  && (parameterNumber (header r) =? ofZ 3)%num.

(** The [forEach]: a later record replaces an earlier one. *)
Definition pickComponents (records : list GFSRecord)
  : option GFSRecord * option GFSRecord :=
  fold_left
    (fun acc r =>
       if isUComponent r then (Some r, snd acc)
       else if isVComponent r then (fst acc, Some r)
       else acc)
    records (None, None).

Definition createFieldFromGFS (records : list GFSRecord) : outcome Field :=
  match pickComponents records with
  | (Some uComp, Some vComp) =>
      let hd := header uComp in
      Field_new
        (mkOptions (lo1 hd) (lo2 hd) (la1 hd) (la2 hd) (nx hd) (ny hd)
           (data uComp) (data vComp) (dx hd) (dy hd) None)
  | _ => Throw "invalid data"
  end.

(** A field that spans the globe: two columns of 180 degrees, one row. *)
Definition globeOptions : ConstructorOptions :=
  mkOptions (ofZ 0) (ofZ 360) (ofZ 0) (ofZ 1) 2 1
    [Val (ofZ 1); Val (ofZ 2)] [Val (ofZ 0); Val (ofZ 0)]
    (ofZ 180) (ofZ 1) None.

Definition globeField : Field :=
  mkField (ofZ 0) (ofZ 360) (ofZ 0) (ofZ 1) 2 1
    (o_us globeOptions) (o_vs globeOptions) (ofZ 180) (ofZ 1)
    [[Val (Vector_new (ofZ 1) (ofZ 0)); Val (Vector_new (ofZ 2) (ofZ 0));
      Val (Vector_new (ofZ 1) (ofZ 0))]]
    true true (ofZ 1, ofZ 2).

(** A field whose [deltaY] is zero. *)
Definition flatOptions : ConstructorOptions :=
  mkOptions (ofZ 0) (ofZ 2) (ofZ 1) (ofZ 1) 2 1
    [Val (ofZ 1); Val (ofZ 2)] [Val (ofZ 0); Val (ofZ 0)]
    (ofZ 1) (ofZ 0) None.

(** [0 <= x < 1], the values of [Math.random()]. *)
Definition unit_interval (x : number) : bool :=
  (zero <=? x)%num && (x <? one)%num.

(** The particles that the next tick recycles. *)
Definition aged (o : ParticleOptions) (ps : list Particle) : list Particle :=
  filter (fun p => (p_age p >? maxAge o)%num) ps.

(** The options that [createFieldFromGFS] hands to the constructor: the
    geometry of the header of the [u] record, the data of both. *)
Definition optionsOfGFS (uComp vComp : GFSRecord) : ConstructorOptions :=
  let hd := header uComp in
  mkOptions (lo1 hd) (lo2 hd) (la1 hd) (la2 hd) (nx hd) (ny hd)
    (data uComp) (data vComp) (dx hd) (dy hd) None.

(** Two records of a file made of the samples of the example field. *)
Definition exampleURecord : GFSRecord :=
  mkGFSRecord
    (mkGFSHeader (ofZ 0) (ofZ 2) (ofZ 0) (ofZ 2) (ofZ 1) (ofZ 1) 2 2
       (ofZ 2) (ofZ 2))
    (o_us exampleOptions).

Definition exampleVRecord : GFSRecord :=
  mkGFSRecord
    (mkGFSHeader (ofZ 0) (ofZ 2) (ofZ 0) (ofZ 2) (ofZ 1) (ofZ 1) 2 2
       (ofZ 2) (ofZ 3))
    (o_vs exampleOptions).

(** A field declared without columns. *)
Definition columnlessOptions : ConstructorOptions :=
  mkOptions (ofZ 0) (ofZ 2) (ofZ 0) (ofZ 2) 0 1 [] [] (ofZ 1) (ofZ 1) None.

(** * Properties *)

(** ** Closed computations

    Two closed terms built from rationals in lowest terms are equal as soon
    as their values are: [Qc_is_canon] disposes of the proofs of
    canonicity that evaluation leaves inside them. *)

Ltac qc_canon := apply Qc_is_canon; reflexivity.
Ltac by_evaluation :=
  solve [vm_compute; repeat first [reflexivity | qc_canon | f_equal]].

Lemma exampleField_built : Field_new exampleOptions = Ok exampleField.
Proof. by_evaluation. Qed.

(** ** C1: the example of the specification *)

Lemma C1_counterexample :
  Field_new exampleOptions = Ok exampleField /\
  interpolatedValueAt exampleField (ofZ 1) (ofZ 1)
    <> Some (mkVector (ofZ 0) (ofZ 0) (ofZ 0)).
Proof.
  split; [exact exampleField_built|].
  intro H. vm_compute in H. discriminate H.
Qed.

(** C1 (amended).  On the field of the example the point [(1, 1)] has the
    decimal indexes [(1, 1)]: it is the grid node of column 1, row 1, and
    the interpolation returns that cell, [u = -1], [v = 0], magnitude [1].
    The average of the four cells, [u = 0], [v = 0], magnitude [0], is the
    value at [(1/2, 3/2)], whose decimal indexes are [(1/2, 1/2)]. *)
Theorem C1_example_node_and_centre :
  Field_new exampleOptions = Ok exampleField /\
  getDecimalIndexes exampleField (ofZ 1) (ofZ 1) = (ofZ 1, ofZ 1) /\
  interpolatedValueAt exampleField (ofZ 1) (ofZ 1)
    = Some (mkVector (ofZ (-1)) (ofZ 0) (ofZ 1)) /\
  getDecimalIndexes exampleField (ofQ (1 # 2)) (ofQ (3 # 2))
    = (ofQ (1 # 2), ofQ (1 # 2)) /\
  interpolatedValueAt exampleField (ofQ (1 # 2)) (ofQ (3 # 2))
    = Some (mkVector (ofZ 0) (ofZ 0) (ofZ 0)).
Proof.
  split; [exact exampleField_built|].
  repeat split; by_evaluation.
Qed.

(** ** The four corners of the interpolation *)

Lemma bilinearBlend_spec_eq : forall x y g00 g10 g01 g11,
  bilinearInterpolateVector x y g00 g10 g01 g11
  = bilinearBlend_spec x y g00 g10 g01 g11.
Proof. reflexivity. Qed.

Lemma getFourSurroundingValues_corners : forall f fi ci fj cj,
  getFourSurroundingValues f fi ci fj cj =
  match corner f fi fj, corner f ci fj, corner f fi cj, corner f ci cj with
  | Val g00, Val g10, Val g01, Val g11 => Some (g00, g10, g01, g11)
  | _, _, _, _ => None
  end.
Proof.
  intros f fi ci fj cj. unfold getFourSurroundingValues, corner.
  destruct (grid_row f fj) as [row|]; [|reflexivity].
  destruct (item_at row fi); try reflexivity.
  destruct (item_at row ci); try reflexivity.
  destruct (grid_row f cj) as [row'|]; [|reflexivity].
  destruct (item_at row' fi); try reflexivity.
Qed.

(** ** Order on numbers *)

Ltac qc2q :=
  unfold Qcle, Qclt, Qcdiv, Qcminus, Qcplus, Qcmult, Qcopp, Qcinv, Q2Qc in *;
  cbn [this] in *;
  repeat (rewrite !Qred_correct in * ).

Lemma ltb_Fin : forall x y, ltb (Fin x) (Fin y) = true <-> (x < y)%Qc.
Proof.
  intros x y. simpl. rewrite Qclt_alt.
  destruct (x ?= y)%Qc; split; congruence.
Qed.

Lemma eqb_Fin : forall x y, eqb (Fin x) (Fin y) = true <-> x = y.
Proof.
  intros x y. simpl. rewrite Qceq_alt.
  destruct (x ?= y)%Qc; split; congruence.
Qed.

Lemma leb_Fin : forall x y, leb (Fin x) (Fin y) = true <-> (x <= y)%Qc.
Proof.
  intros x y. unfold leb. rewrite orb_true_iff, ltb_Fin, eqb_Fin. split.
  - intros [H | ->]; [apply Qclt_le_weak, H | apply Qcle_refl].
  - intros H. destruct (Qcle_lt_or_eq _ _ H); auto.
Qed.

Lemma ltb_Fin_false : forall x y, ltb (Fin x) (Fin y) = false <-> (y <= x)%Qc.
Proof.
  intros x y. rewrite <- not_true_iff_false, ltb_Fin. split.
  - apply Qcnot_lt_le.
  - intros H H'. exact (Qcle_not_lt _ _ H H').
Qed.

Lemma leb_Fin_false : forall x y, leb (Fin x) (Fin y) = false <-> (y < x)%Qc.
Proof.
  intros x y. rewrite <- not_true_iff_false, leb_Fin. split.
  - apply Qcnot_le_lt.
  - intros H H'. exact (Qclt_not_le _ _ H H').
Qed.

Lemma Qc_lt_succ : forall a : Qc, (a < a + Q2Qc 1)%Qc.
Proof. intros a. qc2q. lra. Qed.

Lemma succ_gtb : forall a, (Fin a + one >? Fin a)%num = true.
Proof. intros a. unfold gtb. apply ltb_Fin, Qc_lt_succ. Qed.

Lemma succ_leb : forall a, (Fin a + one <=? Fin a)%num = false.
Proof. intros a. apply leb_Fin_false, Qc_lt_succ. Qed.

(** ** C10: a staged target coordinate equal to 0 *)

(** C10.  When the staged [xt] or [yt] of a particle is exactly [0], the
    draw step strokes no segment for it and leaves the particle as it is,
    position included: the test [!particles[i].xt] reads the coordinate 0
    as an absent target, whatever the age and the coverage are. *)
Theorem C10_zero_target_is_skipped : forall h o min0 max0 p,
  p_xt p = Val zero \/ p_yt p = Val zero ->
  drawParticle h o min0 max0 p = (p, None).
Proof.
  intros h o min0 max0 p [H | H]; unfold drawParticle; rewrite H.
  - reflexivity.
  - destruct (negb (present (p_xt p))); reflexivity.
Qed.

(** On the example field a particle on the node [(1, 1)], where the flow
    is [(-1, 0)], is advected with velocity scale 1 to [(0, 1)]: the target
    is covered, the age after the tick is 1, and the draw step skips it. *)
Lemma C10_witness :
  moveParticle exampleField exampleHost (exampleEngine one) 0 nodeParticle
  = Ok (mkParticle (ofZ 1) (ofZ 1) (Val zero) (Val (ofZ 1)) (ofZ 1)
          (Val (ofZ 1)), 0%nat) /\
  hasValueAt exampleField zero (ofZ 1) = Ok true /\
  drawParticle exampleHost (exampleEngine one) (ofZ 1) (ofZ 1)
    (mkParticle (ofZ 1) (ofZ 1) (Val zero) (Val (ofZ 1)) (ofZ 1) (Val (ofZ 1)))
  = (mkParticle (ofZ 1) (ofZ 1) (Val zero) (Val (ofZ 1)) (ofZ 1) (Val (ofZ 1)),
     None).
Proof.
  split; [by_evaluation|]. split; [by_evaluation|].
  apply C10_zero_target_is_skipped. left. reflexivity.
Defined.

(** ** C7: a target outside the coverage *)

Lemma drawParticle_too_old : forall h o min0 max0 p,
  (p_age p <=? maxAge o)%num = false ->
  drawParticle h o min0 max0 p = (p, None).
Proof.
  intros h o min0 max0 p H. unfold drawParticle, drawCoordsParticle.
  rewrite H, andb_false_r.
  destruct (negb (present (p_xt p))), (negb (present (p_yt p))); reflexivity.
Qed.

(** C7.  When the advected target [(xt, yt)] of a particle is outside the
    coverage ([hasValueAt] is false), the tick moves the particle to
    [(xt, yt)], sets its age to [maxAge] (the increment that ends every
    iteration makes it [maxAge + 1]) and writes no staged target: [xt],
    [yt] and [m] keep what they held.  The draw step of the tick strokes
    nothing for it and does not touch it, and the particle is recycled by
    the aged-out check of the next tick, not by this one. *)
Theorem C7_outside_target_moves_unseen :
  forall f h o k p p1 k1 vec a min0 max0,
  maxAge o = Fin a ->
  recycle f h o k p = (p1, k1) ->
  interpolatedValueAt f (p_x p1) (p_y p1) = Some vec ->
  hasValueAt f (p_x p1 + u vec * velocityScale o)%num
               (p_y p1 + v vec * velocityScale o)%num = Ok false ->
  let p2 := mkParticle (p_x p1 + u vec * velocityScale o)%num
                       (p_y p1 + v vec * velocityScale o)%num
                       (p_xt p1) (p_yt p1) (maxAge o + one)%num (p_m p1) in
  moveParticle f h o k p = Ok (p2, k1) /\
  drawParticle h o min0 max0 p2 = (p2, None) /\
  forall k', recycle f h o k' p2
             = assignRandomPosition f h k' (set_age p2 zero)
                 (canvas_width h) (canvas_height h).
Proof.
  intros f h o k p p1 k1 vec a min0 max0 Ha Hr Hv Hh p2.
  split; [|split].
  - unfold moveParticle. rewrite Hr. unfold advect. rewrite Hv.
    cbn [bind]. rewrite Hh. reflexivity.
  - apply drawParticle_too_old. subst p2. cbn [p_age]. rewrite Ha.
    apply succ_leb.
  - intros k'. unfold recycle. subst p2. cbn [p_age]. rewrite Ha, succ_gtb.
    reflexivity.
Qed.

(** With velocity scale 10 the particle on the node [(1, 1)] of the example
    field is advected to [(-9, 1)], outside the field. *)
Lemma C7_witness :
  moveParticle exampleField exampleHost (exampleEngine (ofZ 10)) 0 nodeParticle
  = Ok (mkParticle (ofZ 1 + u (Vector_new (ofZ (-1)) (ofZ 0)) * ofZ 10)%num
          (ofZ 1 + v (Vector_new (ofZ (-1)) (ofZ 0)) * ofZ 10)%num
          Undefined Undefined (ofZ 60 + one)%num Undefined, 0%nat).
Proof.
  refine (proj1 (C7_outside_target_moves_unseen exampleField exampleHost
                   (exampleEngine (ofZ 10)) 0 nodeParticle nodeParticle 0
                   (Vector_new (ofZ (-1)) (ofZ 0)) (Q2Qc 60) zero zero
                   _ _ _ _)); by_evaluation.
Defined.

(** ** C6: the tick that recycles a particle *)

Lemma C6_counterexample :
  (p_age agedParticle >? maxAge (exampleEngine one))%num = true /\
  render exampleField exampleHost (exampleEngine one) 0 [agedParticle]
  = Ok ([mkParticle (ofZ 1) (ofZ 2) (Val (ofZ 1)) (Val (ofZ 2)) (ofZ 1)
           (Val (ofZ 1))],
        [mkSegment (ofZ 0, ofZ 2) (ofZ 1, ofZ 2) (Val "#fff"%string)],
        2%nat).
Proof. split; by_evaluation. Qed.

Lemma assignRandomPosition_count : forall f h k p w ht,
  snd (assignRandomPosition f h k p w ht) = S (S k).
Proof.
  intros. unfold assignRandomPosition.
  destruct (unproject h _) as [[cx cy]|]; reflexivity.
Qed.

Lemma assignRandomPosition_age : forall f h k p w ht,
  p_age (fst (assignRandomPosition f h k p w ht)) = p_age p.
Proof.
  intros. unfold assignRandomPosition.
  destruct (unproject h _) as [[cx cy]|]; reflexivity.
Qed.

Lemma zero_plus_one : (zero + one)%num = one.
Proof. by_evaluation. Qed.

(** C6 (amended).  A particle whose age exceeds [maxAge] at the start of a
    tick has its age reset to 0 and its position reseeded by
    [assignRandomPosition] (the unprojected random pixel, or the cell
    centre of the random indexes when unprojecting fails) before it is
    sampled; the rest of the tick treats it like any other particle.  So
    when the new position has an interpolated value, the advected target is
    covered, non-zero in both coordinates and visible, both projections
    succeed and [1 <= maxAge], the particle ends the tick with age 1 and a
    segment from the new position to the target is stroked during the very
    tick that recycled it. *)
Theorem C6_recycled_particle_is_advected : forall f h o k p,
  (p_age p >? maxAge o)%num = true ->
  let i := toInt32 (random h k * orElse (canvas_width h) (ofNat (cols f)))%num in
  let j := toInt32 (random h (S k)
                    * orElse (canvas_height h) (ofNat (rows f)))%num in
  let seeded :=
    fst (assignRandomPosition f h k (set_age p zero)
           (canvas_width h) (canvas_height h)) in
  recycle f h o k p = (seeded, S (S k)) /\
  p_age seeded = zero /\
  (p_x seeded, p_y seeded)
    = match unproject h (i, j) with
      | Some c => c
      | None => lonLatAtIndexes f i j
      end /\
  forall vec a b min0 max0,
    interpolatedValueAt f (p_x seeded) (p_y seeded) = Some vec ->
    let xt := (p_x seeded + u vec * velocityScale o)%num in
    let yt := (p_y seeded + v vec * velocityScale o)%num in
    hasValueAt f xt yt = Ok true ->
    truthy xt = true -> truthy yt = true ->
    intersectsCoordinate h (xt, yt) = true ->
    (one <=? maxAge o)%num = true ->
    project h (p_x seeded, p_y seeded) = Some a ->
    project h (xt, yt) = Some b ->
    let q := mkParticle (p_x seeded) (p_y seeded) (Val xt) (Val yt) one
               (Val (m vec)) in
    moveParticle f h o k p = Ok (q, S (S k)) /\
    drawParticle h o min0 max0 q
    = (mkParticle xt yt (Val xt) (Val yt) one (Val (m vec)),
       Some (mkSegment a b (strokeStyleFor o q min0 max0))).
Proof.
  intros f h o k p Hage i j seeded.
  assert (Hr : recycle f h o k p = (seeded, S (S k))).
  { unfold recycle. rewrite Hage. subst seeded.
    rewrite <- (assignRandomPosition_count f h k (set_age p zero)
                  (canvas_width h) (canvas_height h)).
    apply surjective_pairing. }
  assert (Hz : p_age seeded = zero).
  { subst seeded. apply assignRandomPosition_age. }
  split; [exact Hr|]. split; [exact Hz|]. split.
  - subst seeded i j. unfold assignRandomPosition, lonLatAtIndexes.
    destruct (unproject h _) as [[cx cy]|]; reflexivity.
  - intros vec a b min0 max0 Hv xt yt Hh Hxt Hyt Hvis Hold Ha Hb q. split.
    + unfold moveParticle. rewrite Hr. unfold advect. rewrite Hv.
      cbn [bind]. fold xt yt. rewrite Hh. cbn [bind set_age p_age p_x p_y
        p_xt p_yt p_m]. rewrite Hz, zero_plus_one. reflexivity.
    + unfold drawParticle, drawCoordsParticle. subst q.
      cbn [p_x p_y p_xt p_yt p_age p_m present toNumber fst snd].
      rewrite Hxt, Hyt, Hvis, Hold, Ha, Hb. reflexivity.
Qed.

Lemma C6_witness :
  moveParticle exampleField exampleHost (exampleEngine one) 0 agedParticle
  = Ok (mkParticle (ofZ 0) (ofZ 2) (Val (ofZ 1)) (Val (ofZ 2)) (ofZ 1)
          (Val (ofZ 1)), 2%nat).
Proof.
  assert (H : (p_age agedParticle >? maxAge (exampleEngine one))%num = true)
    by by_evaluation.
  destruct (C6_recycled_particle_is_advected exampleField exampleHost
              (exampleEngine one) 0 agedParticle H) as [_ [_ [_ K]]].
  rewrite (fun h1 h2 h3 h4 h5 h6 h7 h8 =>
             proj1 (K (Vector_new (ofZ 1) (ofZ 0)) (ofZ 0, ofZ 2)
                      (ofZ 1, ofZ 2) one one h1 h2 h3 h4 h5 h6 h7 h8));
    by_evaluation.
Defined.

(** ** C8: the latitude bounds kept by the constructor *)

Lemma C8_counterexample :
  exists f, Field_new flippedOptions = Ok f /\
    (o_deltaY flippedOptions <? zero)%num = true /\
    ymin f = o_ymax flippedOptions /\ ymax f = o_ymin flippedOptions /\
    ymin f <> o_ymin flippedOptions /\ ymax f <> o_ymax flippedOptions.
Proof.
  eexists. split; [vm_compute; reflexivity|].
  cbn [ymin ymax]. repeat split; try by_evaluation;
    intro H; vm_compute in H; discriminate H.
Qed.

Lemma min_leb_max : forall a b,
  is_nan a = false -> is_nan b = false -> (min a b <=? max a b)%num = true.
Proof.
  intros [| | |x] [| | |y] Ha Hb; try discriminate; try reflexivity.
  unfold min, max. destruct (ltb (Fin y) (Fin x)) eqn:E1.
  - apply ltb_Fin in E1.
    assert (E2 : ltb (Fin x) (Fin y) = false)
      by (apply ltb_Fin_false, Qclt_le_weak, E1).
    rewrite E2. apply leb_Fin, Qclt_le_weak, E1.
  - apply ltb_Fin_false in E1.
    destruct (ltb (Fin x) (Fin y)); apply leb_Fin;
      [exact E1 | apply Qcle_refl].
Qed.

Lemma Field_new_bounds : forall o f, Field_new o = Ok f ->
  ymin f = (if (o_deltaY o <? zero)%num && (o_ymin o <? o_ymax o)%num
            then o_ymin o else min (o_ymax o) (o_ymin o)) /\
  ymax f = (if (o_deltaY o <? zero)%num && (o_ymin o <? o_ymax o)%num
            then o_ymax o else max (o_ymax o) (o_ymin o)).
Proof.
  intros o f H. unfold Field_new in H.
  destruct (calculateRange _) as [r|e]; [|discriminate H].
  cbn [bind] in H. injection H as <-. split; reflexivity.
Qed.

(** C8 (amended).  The constructor keeps the given [ymin] and [ymax]
    unchanged when [deltaY < 0] and [options.ymin < options.ymax]; in every
    other case, [deltaY >= 0] or a negative [deltaY] with
    [options.ymin >= options.ymax], it stores their minimum as [ymin] and
    their maximum as [ymax], so that [ymin <= ymax] when neither is
    [NaN]. *)
Theorem C8_latitude_bounds : forall o f,
  Field_new o = Ok f ->
  ((o_deltaY o <? zero)%num = true -> (o_ymin o <? o_ymax o)%num = true ->
   ymin f = o_ymin o /\ ymax f = o_ymax o) /\
  ((o_deltaY o <? zero)%num = false \/ (o_ymin o <? o_ymax o)%num = false ->
   ymin f = min (o_ymax o) (o_ymin o) /\
   ymax f = max (o_ymax o) (o_ymin o) /\
   (is_nan (o_ymin o) = false -> is_nan (o_ymax o) = false ->
    (ymin f <=? ymax f)%num = true)).
Proof.
  intros o f H. destruct (Field_new_bounds o f H) as [Hmin Hmax].
  rewrite Hmin, Hmax. split.
  - intros -> ->. split; reflexivity.
  - intros Hc.
    assert (E : (o_deltaY o <? zero)%num && (o_ymin o <? o_ymax o)%num = false)
      by (apply andb_false_iff; exact Hc).
    rewrite E. repeat split. intros Ha Hb. apply min_leb_max; assumption.
Qed.

Lemma C8_witness :
  exists f, Field_new flippedOptions = Ok f /\
    ymin f = min (o_ymax flippedOptions) (o_ymin flippedOptions) /\
    ymax f = max (o_ymax flippedOptions) (o_ymin flippedOptions).
Proof.
  eexists. split; [vm_compute; reflexivity|].
  match goal with
  | |- ymin ?f = _ /\ _ =>
      assert (B : Field_new flippedOptions = Ok f) by (vm_compute; reflexivity);
      destruct (proj2 (C8_latitude_bounds flippedOptions f B))
        as [H1 [H2 _]]; [right; by_evaluation | split; assumption]
  end.
Defined.

(** ** Integers among the numbers *)

Lemma this_inject_Z : forall z, this (Q2Qc (inject_Z z)) = inject_Z z.
Proof.
  intros z. cbn [this Q2Qc]. apply Qred_identity. cbn. apply Z.gcd_1_r.
Qed.

Lemma as_index_ofNat : forall n, as_index (ofNat n) = Some n.
Proof.
  intros n. unfold as_index, ofNat, ofZ. rewrite this_inject_Z. cbn.
  destruct (Z.leb_spec 0 (Z.of_nat n)); [|lia].
  now rewrite Nat2Z.id.
Qed.

Lemma floor_ofZ : forall z, floor (ofZ z) = ofZ z.
Proof.
  intros z. unfold floor, ofZ. rewrite this_inject_Z, Qfloor_Z. reflexivity.
Qed.

Lemma floor_ofNat : forall n, floor (ofNat n) = ofNat n.
Proof. intros n. apply floor_ofZ. Qed.

Lemma Qc_of_Z_lt : forall a b,
  (Q2Qc (inject_Z a) < Q2Qc (inject_Z b))%Qc <-> (a < b)%Z.
Proof. intros a b. qc2q. rewrite <- Zlt_Qlt. reflexivity. Qed.

Lemma Qc_of_Z_le : forall a b,
  (Q2Qc (inject_Z a) <= Q2Qc (inject_Z b))%Qc <-> (a <= b)%Z.
Proof. intros a b. qc2q. rewrite <- Zle_Qle. reflexivity. Qed.

Lemma ltb_ofZ : forall a b, ltb (ofZ a) (ofZ b) = Z.ltb a b.
Proof.
  intros a b. unfold ofZ. destruct (Z.ltb_spec a b) as [H | H].
  - apply ltb_Fin, Qc_of_Z_lt, H.
  - apply ltb_Fin_false, Qc_of_Z_le, H.
Qed.

Lemma leb_ofZ : forall a b, leb (ofZ a) (ofZ b) = Z.leb a b.
Proof.
  intros a b. unfold ofZ. destruct (Z.leb_spec a b) as [H | H].
  - apply leb_Fin, Qc_of_Z_le, H.
  - apply leb_Fin_false, Qc_of_Z_lt, H.
Qed.

Lemma add_ofZ : forall a b, (ofZ a + ofZ b)%num = ofZ (a + b).
Proof.
  intros a b. unfold ofZ. cbn [add]. f_equal. apply Qc_is_canon. qc2q.
  rewrite inject_Z_plus. reflexivity.
Qed.

Lemma sub_ofZ : forall a b, (ofZ a - ofZ b)%num = ofZ (a - b).
Proof.
  intros a b. unfold ofZ, sub. cbn [neg add]. f_equal. apply Qc_is_canon.
  qc2q. unfold Z.sub. rewrite inject_Z_plus, inject_Z_opp. reflexivity.
Qed.

Lemma min_ofZ : forall a b, min (ofZ a) (ofZ b) = ofZ (Z.min a b).
Proof.
  intros a b. change (min (ofZ a) (ofZ b))
    with (if ltb (ofZ b) (ofZ a) then ofZ b else ofZ a).
  rewrite ltb_ofZ. destruct (Z.ltb_spec b a); f_equal; lia.
Qed.

Lemma max_ofZ : forall a b, max (ofZ a) (ofZ b) = ofZ (Z.max a b).
Proof.
  intros a b. change (max (ofZ a) (ofZ b))
    with (if ltb (ofZ a) (ofZ b) then ofZ b else ofZ a).
  rewrite ltb_ofZ. destruct (Z.ltb_spec a b); f_equal; lia.
Qed.

Lemma leb_refl : forall a, is_nan a = false -> (a <=? a)%num = true.
Proof.
  intros [| | |x] H; try discriminate; try reflexivity.
  apply leb_Fin, Qcle_refl.
Qed.

Lemma leb_not_nan_l : forall a b, (a <=? b)%num = true -> is_nan a = false.
Proof. intros [| | |x] b H; try reflexivity. discriminate H. Qed.

Lemma leb_not_nan_r : forall a b, (a <=? b)%num = true -> is_nan b = false.
Proof.
  intros a [| | |y] H; try reflexivity.
  destruct a; discriminate H.
Qed.

(** ** The shape of the grid that the constructor builds *)

Lemma Field_new_grid : forall o f, Field_new o = Ok f ->
  grid f = buildGrid (o_us o) (o_vs o) (isContinuous f) (o_rows o) (o_cols o)
  /\ cols f = o_cols o /\ rows f = o_rows o
  /\ isContinuous f
     = (floor (ofNat (o_cols o) * o_deltaX o) >=? ofZ 360)%num
  /\ calculateRange (grid f) = Ok (range f).
Proof.
  intros o f H. unfold Field_new in H.
  destruct (calculateRange _) as [r|e] eqn:E; [|discriminate H].
  cbn [bind] in H. injection H as <-. cbn. repeat split. exact E.
Qed.

Lemma buildRow_length : forall us0 vs0 n p,
  List.length (buildRow us0 vs0 n p) = n.
Proof.
  intros us0 vs0 n. induction n as [|n IH]; intros p; cbn;
    [reflexivity | now rewrite IH].
Qed.

Lemma buildRows_row_length : forall us0 vs0 continuous r c p row,
  In row (buildRows us0 vs0 continuous r c p) ->
  List.length row = if continuous then S c else c.
Proof.
  intros us0 vs0 continuous r c. induction r as [|r IH]; intros p row H.
  - destruct H.
  - cbn in H. destruct H as [<- | H]; [|exact (IH _ _ H)].
    destruct continuous.
    + rewrite length_app, buildRow_length. cbn. lia.
    + apply buildRow_length.
Qed.

Lemma grid_row_In : forall f j row, grid_row f j = Some row -> In row (grid f).
Proof.
  intros f j row H. unfold grid_row in H.
  destruct (as_index j) as [n|]; [|discriminate H].
  exact (nth_error_In _ _ H).
Qed.

Lemma item_at_length : forall (row : Row),
  item_at row (ofNat (List.length row)) = Undefined.
Proof.
  intros row. unfold item_at, item. rewrite as_index_ofNat.
  assert (E : nth_error row (List.length row) = None)
    by (apply nth_error_None; lia).
  now rewrite E.
Qed.

(** ** The last column *)

Lemma sub_one_ltb : forall n, (ofNat n - one <? ofNat n)%num = true.
Proof.
  intros n. unfold ofNat, one. rewrite sub_ofZ, ltb_ofZ. apply Z.ltb_lt. lia.
Qed.

Lemma ofNat_ltb_zero : forall n, (ofNat n <? zero)%num = false.
Proof.
  intros n. unfold ofNat, zero. rewrite ltb_ofZ. apply Z.ltb_ge. lia.
Qed.

Lemma clampColumnIndex_cols : forall f,
  clampColumnIndex f (ofNat (cols f)) = (ofNat (cols f) - one)%num.
Proof.
  intros f. unfold clampColumnIndex, gtb. now rewrite sub_one_ltb.
Qed.

(** ** C4: the range of a constructed field *)

Lemma C4_counterexample :
  exists f, Field_new emptyOptions = Ok f /\
    grid f = [[Null]] /\
    range f = (PosInf, NegInf) /\
    (fst (range f) <=? snd (range f))%num = false.
Proof.
  eexists. split; [vm_compute; reflexivity|].
  repeat split.
Qed.

Lemma rangeRow_seq : forall rest pre acc,
  (forall c, In c rest -> c <> Undefined) ->
  rangeRow (pre ++ rest) (seq (List.length pre) (List.length rest)) acc
  = Ok (rangeFold rest acc).
Proof.
  induction rest as [|c rest IH]; intros pre acc H; [reflexivity|].
  cbn [List.length seq rangeRow]. unfold item.
  rewrite nth_error_app2, Nat.sub_diag by lia. cbn [nth_error].
  assert (Hc : c <> Undefined) by (apply H; left; reflexivity).
  assert (Hr : forall c', In c' rest -> c' <> Undefined)
    by (intros c' Hin; apply H; right; exact Hin).
  specialize (IH (pre ++ [c])). rewrite <- app_assoc, length_app in IH.
  cbn [List.length app] in IH. rewrite Nat.add_1_r in IH.
  destruct c as [| |w]; [congruence| |]; cbn [rangeCell bind];
    rewrite IH by exact Hr; reflexivity.
Qed.

Lemma rangeRows_seq : forall c rest pre acc,
  (forall row, In row rest ->
     List.length row = c /\ forall x, In x row -> x <> Undefined) ->
  rangeRows (pre ++ rest) (seq (List.length pre) (List.length rest)) c acc
  = Ok (rangeFold (List.concat rest) acc).
Proof.
  intros c. induction rest as [|row rest IH]; intros pre acc H; [reflexivity|].
  cbn [List.length seq rangeRows].
  rewrite nth_error_app2, Nat.sub_diag by lia. cbn [nth_error].
  destruct (H row (or_introl eq_refl)) as [L Hrow].
  rewrite <- L.
  pose proof (rangeRow_seq row [] acc Hrow) as R.
  cbn [app List.length] in R. rewrite R. cbn [bind].
  specialize (IH (pre ++ [row])). rewrite <- app_assoc, length_app in IH.
  cbn [List.length app] in IH. rewrite Nat.add_1_r in IH.
  rewrite L, IH by (intros r Hr; apply H; right; exact Hr).
  cbn [List.concat]. unfold rangeFold. rewrite fold_left_app. reflexivity.
Qed.

Lemma buildRow_cells : forall us0 vs0 n p x,
  In x (buildRow us0 vs0 n p) -> exists q, x = buildCell us0 vs0 q.
Proof.
  intros us0 vs0 n. induction n as [|n IH]; intros p x H; [destruct H|].
  cbn in H. destruct H as [<- | H]; [now exists p | exact (IH _ _ H)].
Qed.

Lemma buildRows_cells : forall us0 vs0 continuous r c p row x,
  (continuous = true -> c <> 0%nat) ->
  In row (buildRows us0 vs0 continuous r c p) -> In x row ->
  exists q, x = buildCell us0 vs0 q.
Proof.
  intros us0 vs0 continuous r c. induction r as [|r IH];
    intros p row x Hc Hrow Hx; [destruct Hrow|].
  cbn in Hrow. destruct Hrow as [<- | Hrow]; [|exact (IH _ _ _ Hc Hrow Hx)].
  destruct continuous; [|exact (buildRow_cells _ _ _ _ _ Hx)].
  apply in_app_or in Hx. destruct Hx as [Hx | [<- | []]];
    [exact (buildRow_cells _ _ _ _ _ Hx)|].
  destruct c as [|c]; [now elim Hc|]. cbn. now exists p.
Qed.

Lemma buildCell_defined : forall us0 vs0 q, buildCell us0 vs0 q <> Undefined.
Proof.
  intros us0 vs0 q. unfold buildCell.
  destruct (item us0 q), (item vs0 q); discriminate.
Qed.

Lemma item_In : forall (A : Type) (arr : list (jsval A)) p a,
  item arr p = Val a -> In (Val a) arr.
Proof.
  intros A arr p a H. unfold item in H.
  destruct (nth_error arr p) as [x|] eqn:E; [|discriminate H].
  subst x. exact (nth_error_In _ _ E).
Qed.

Lemma buildCell_Val : forall us0 vs0 q w,
  buildCell us0 vs0 q = Val w ->
  In (Val (u w)) us0 /\ In (Val (v w)) vs0 /\ w = Vector_new (u w) (v w).
Proof.
  intros us0 vs0 q w H. unfold buildCell in H.
  destruct (item us0 q) as [| |u0] eqn:Eu; try discriminate H.
  destruct (item vs0 q) as [| |v0] eqn:Ev; try discriminate H.
  injection H as <-. cbn. repeat split; eapply item_In; eassumption.
Qed.

Lemma not_continuous_without_columns : forall dx,
  (floor (ofNat 0 * dx) >=? ofZ 360)%num = false.
Proof.
  intros [| | |x]; reflexivity.
Qed.

Lemma sum_of_squares_sign : forall x y : Qc, sgn (x * x + y * y)%Qc <> Lt.
Proof.
  intros x y H. unfold sgn in H. apply Qclt_alt in H. revert H. qc2q.
  intros H. nra.
Qed.

Lemma magnitude_not_nan : forall a b,
  is_nan a = false -> is_nan b = false ->
  is_nan (sqrt (a * a + b * b)%num) = false.
Proof.
  intros [| | |x] [| | |y] Ha Hb; try discriminate; try reflexivity.
  cbn [mul add]. unfold sqrt.
  pose proof (sum_of_squares_sign x y) as S.
  destruct (sgn (x * x + y * y)%Qc); [reflexivity | congruence | reflexivity].
Qed.

Lemma min_max_step : forall val lo hi,
  is_nan val = false -> is_nan lo = false -> is_nan hi = false ->
  (min val lo <=? max val hi)%num = true.
Proof.
  intros [| | |x] [| | |y] [| | |z] H1 H2 H3; try discriminate;
    try reflexivity; unfold min, max;
    repeat match goal with
    | |- context [ltb ?a ?b] =>
        let E := fresh "E" in destruct (ltb a b) eqn:E
    end;
    try reflexivity; try discriminate;
    repeat match goal with
    | E : ltb (Fin _) (Fin _) = true |- _ => apply ltb_Fin in E
    | E : ltb (Fin _) (Fin _) = false |- _ => apply ltb_Fin_false in E
    end;
    apply leb_Fin; qc2q; lra.
Qed.

Lemma Field_new_succeeds : forall o,
  o_rows o <> 0%nat ->
  exists f, Field_new o = Ok f /\
    range f = rangeFold (List.concat (grid f)) (PosInf, NegInf).
Proof.
  intros o Hrows. unfold Field_new.
  set (continuous := (floor (ofNat (o_cols o) * o_deltaX o) >=? ofZ 360)%num).
  set (g := buildGrid (o_us o) (o_vs o) continuous (o_rows o) (o_cols o)).
  assert (Hc : continuous = true -> o_cols o <> 0%nat).
  { intros Ht E. subst continuous. rewrite E in Ht.
    rewrite not_continuous_without_columns in Ht. discriminate Ht. }
  assert (Hg : calculateRange g = Ok (rangeFold (List.concat g) (PosInf, NegInf))).
  { assert (Hshape : forall row, In row g ->
              List.length row = (if continuous then S (o_cols o) else o_cols o)
              /\ forall x, In x row -> x <> Undefined).
    { intros row Hrow. split.
      - exact (buildRows_row_length _ _ _ _ _ _ _ Hrow).
      - intros x Hx.
        destruct (buildRows_cells _ _ _ _ _ _ _ _ Hc Hrow Hx) as [q ->].
        apply buildCell_defined. }
    destruct g as [|row0 rest] eqn:Eg.
    - subst g. unfold buildGrid in Eg.
      destruct (o_rows o); [now elim Hrows | discriminate Eg].
    - unfold calculateRange.
      rewrite (proj1 (Hshape row0 (or_introl eq_refl))).
      exact (rangeRows_seq _ (row0 :: rest) [] _ Hshape). }
  rewrite Hg. cbn [bind]. eexists. split; [reflexivity|]. reflexivity.
Qed.

Lemma rangeFold_all_null : forall cells acc,
  (forall c, In c cells -> c = Null) -> rangeFold cells acc = acc.
Proof.
  induction cells as [|c cells IH]; intros acc H; [reflexivity|].
  unfold rangeFold. cbn [fold_left]. rewrite (H c (or_introl eq_refl)).
  apply IH. intros c' Hc'. apply H. right. exact Hc'.
Qed.

Lemma rangeFold_ordered : forall cells acc,
  (forall w, In (Val w) cells ->
     is_nan (if truthy (m w) then m w else magnitude w) = false) ->
  is_nan (fst acc) = false -> is_nan (snd acc) = false ->
  (fst acc <=? snd acc)%num = true \/ (exists w, In (Val w) cells) ->
  (fst (rangeFold cells acc) <=? snd (rangeFold cells acc))%num = true.
Proof.
  induction cells as [|c cells IH]; intros acc Hgood H1 H2 Hord.
  - destruct Hord as [H | [w []]]. exact H.
  - assert (Hgood' : forall w, In (Val w) cells ->
              is_nan (if truthy (m w) then m w else magnitude w) = false)
      by (intros w Hw; apply Hgood; right; exact Hw).
    unfold rangeFold. cbn [fold_left]. fold (rangeFold cells).
    destruct c as [| |w].
    + apply IH; try assumption.
      destruct Hord as [H | [w [Hw | Hw]]];
        [left; exact H | discriminate Hw | right; now exists w].
    + apply IH; try assumption.
      destruct Hord as [H | [w [Hw | Hw]]];
        [left; exact H | discriminate Hw | right; now exists w].
    + pose proof (min_max_step _ _ _ (Hgood w (or_introl eq_refl)) H1 H2) as S.
      apply IH; cbn [fst snd]; try assumption.
      * exact (leb_not_nan_l _ _ S).
      * exact (leb_not_nan_r _ _ S).
      * left. exact S.
Qed.

(** C4 (amended).  The constructor fails, with the error "grid required",
    when the grid has no row.  With at least one row it succeeds, also
    when no cell is valid: the range is then [[+Infinity, -Infinity]].
    [range[0] <= range[1]] holds for a constructed field that has a valid
    cell and whose samples are not [NaN]. *)
Theorem C4_range_of_constructed_field : forall o,
  (o_rows o = 0%nat -> Field_new o = Throw "grid required") /\
  (o_rows o <> 0%nat ->
   exists f, Field_new o = Ok f /\
     ((forall row c, In row (grid f) -> In c row -> c = Null) ->
      range f = (PosInf, NegInf)) /\
     ((exists row w, In row (grid f) /\ In (Val w) row) ->
      ~ In (Val NaN) (o_us o) -> ~ In (Val NaN) (o_vs o) ->
      (fst (range f) <=? snd (range f))%num = true)).
Proof.
  intros o. split.
  - intros H. unfold Field_new, buildGrid. rewrite H. reflexivity.
  - intros H. destruct (Field_new_succeeds o H) as [f [Hf Hr]].
    exists f. split; [exact Hf|]. rewrite Hr. split.
    + intros Hnull. apply rangeFold_all_null. intros c Hc.
      apply in_concat in Hc. destruct Hc as [row [Hrow Hc]].
      exact (Hnull row c Hrow Hc).
    + intros [row [w [Hrow Hw]]] Hus Hvs.
      destruct (Field_new_grid o f Hf) as [G [_ [_ [Ec _]]]].
      assert (Hc : isContinuous f = true -> o_cols o <> 0%nat).
      { intros Ht E. rewrite Ec, E, not_continuous_without_columns in Ht.
        discriminate Ht. }
      apply rangeFold_ordered; try reflexivity.
      * intros w' Hw'. apply in_concat in Hw'.
        destruct Hw' as [row' [Hrow' Hw']]. rewrite G in Hrow'.
        destruct (buildRows_cells _ _ _ _ _ _ _ _ Hc Hrow' Hw') as [q Hq].
        symmetry in Hq. destruct (buildCell_Val _ _ _ _ Hq) as [Iu [Iv Ew]].
        assert (Nu : is_nan (u w') = false)
          by (destruct (u w'); try reflexivity; now elim Hus).
        assert (Nv : is_nan (v w') = false)
          by (destruct (v w'); try reflexivity; now elim Hvs).
        pose proof (magnitude_not_nan _ _ Nu Nv) as M.
        rewrite Ew. cbn [m Vector_new magnitude u v].
        destruct (truthy _); exact M.
      * right. exists w. apply in_concat. exists row. split; assumption.
Qed.

Lemma C4_witness :
  Field_new rowlessOptions = Throw "grid required" /\
  exists f, Field_new exampleOptions = Ok f /\
    (fst (range f) <=? snd (range f))%num = true.
Proof.
  split.
  - apply (proj1 (C4_range_of_constructed_field rowlessOptions)). reflexivity.
  - destruct (proj2 (C4_range_of_constructed_field exampleOptions))
      as [f [Hf [_ Hord]]]; [discriminate|].
    exists f. split; [exact Hf|].
    assert (E : f = exampleField)
      by (rewrite exampleField_built in Hf; now injection Hf).
    subst f. apply Hord.
    + exists [Val (Vector_new (ofZ 1) (ofZ 0)); Val (Vector_new (ofZ 0) (ofZ 1))],
        (Vector_new (ofZ 1) (ofZ 0)).
      split; left; reflexivity.
    + intros H. cbn in H.
      repeat (destruct H as [H | H]; [discriminate H|]). exact H.
    + intros H. cbn in H.
      repeat (destruct H as [H | H]; [discriminate H|]). exact H.
Defined.

(** ** C5: the colour index *)

Lemma C5_counterexample :
  indexFor (ofZ 5) (ofZ 3) (ofZ 3) exampleScale = ofZ 2 /\
  indexFor (ofZ 5) (ofZ 3) (ofZ 3) exampleScale <> zero /\
  indexFor (ofZ 3) (ofZ 3) (ofZ 3) exampleScale = NaN.
Proof.
  split; [by_evaluation|]. split; [|by_evaluation].
  intro H. vm_compute in H. discriminate H.
Qed.

Lemma Qfloor_unique : forall (x : Q) (z : Z),
  (inject_Z z <= x)%Q -> (x < inject_Z (z + 1))%Q -> Qfloor x = z.
Proof.
  intros x z H1 H2.
  pose proof (Qfloor_le x) as F1. pose proof (Qlt_floor x) as F2.
  assert (A : (inject_Z (Qfloor x) < inject_Z (z + 1))%Q) by lra.
  assert (B : (inject_Z z < inject_Z (Qfloor x + 1))%Q) by lra.
  rewrite <- Zlt_Qlt in A, B. lia.
Qed.

Lemma sgn_positive : forall y : Qc, (Q2Qc 0 < y)%Qc -> sgn y = Gt.
Proof. intros y H. unfold sgn. apply Qcgt_alt. exact H. Qed.

Lemma Qc_gap_positive : forall b c : Qc, (b < c)%Qc -> (Q2Qc 0 < c + - b)%Qc.
Proof. intros b c. qc2q. intros H. lra. Qed.

(** The position on the scale before rounding, shifted by one half:
    [round] is the floor of it. *)
Lemma indexFor_finite : forall a b c cs,
  (b < c)%Qc ->
  indexFor (Fin a) (Fin b) (Fin c) cs
  = ofZ (Z.max 0
           (Z.min (Z.of_nat (List.length cs) - 1)
              (Qfloor ((a + - b) / (c + - b)
                       * Q2Qc (inject_Z (Z.of_nat (List.length cs) - 1))
                       + Q2Qc (1 # 2))%Qc))).
Proof.
  intros a b c cs H. unfold indexFor.
  assert (L : (ofNat (List.length cs) - one)%num
              = ofZ (Z.of_nat (List.length cs) - 1))
    by (unfold ofNat, one; apply sub_ofZ).
  rewrite L. unfold sub at 1 2. cbn [neg add]. unfold div.
  rewrite (sgn_positive _ (Qc_gap_positive _ _ H)).
  unfold ofZ at 2. cbn [mul round]. unfold zero.
  rewrite min_ofZ, max_ofZ. reflexivity.
Qed.

Lemma position_at_min : forall b c l : Qc,
  (b < c)%Qc ->
  ((b + - b) / (c + - b) * l + Q2Qc (1 # 2))%Qc = Q2Qc (1 # 2).
Proof.
  intros b c l H. field. intros E.
  pose proof (Qc_gap_positive _ _ H) as P.
  replace (c - b)%Qc with (c + - b)%Qc in E by ring.
  rewrite E in P. exact (Qclt_not_eq _ _ P eq_refl).
Qed.

Lemma position_at_max : forall b c l : Qc,
  (b < c)%Qc ->
  ((c + - b) / (c + - b) * l + Q2Qc (1 # 2))%Qc = (l + Q2Qc (1 # 2))%Qc.
Proof.
  intros b c l H. field. intros E.
  pose proof (Qc_gap_positive _ _ H) as P.
  replace (c - b)%Qc with (c + - b)%Qc in E by ring.
  rewrite E in P. exact (Qclt_not_eq _ _ P eq_refl).
Qed.

Lemma position_monotone : forall a1 a2 b c l : Qc,
  (b < c)%Qc -> (Q2Qc 0 <= l)%Qc -> (a1 <= a2)%Qc ->
  ((a1 + - b) / (c + - b) * l + Q2Qc (1 # 2)
   <= (a2 + - b) / (c + - b) * l + Q2Qc (1 # 2))%Qc.
Proof.
  intros a1 a2 b c l Hbc Hl Ha.
  apply Qcplus_le_compat; [|apply Qcle_refl].
  apply Qcmult_le_compat_r; [|exact Hl].
  unfold Qcdiv. apply Qcmult_le_compat_r.
  - apply Qcplus_le_compat; [exact Ha | apply Qcle_refl].
  - pose proof (Qc_gap_positive _ _ Hbc) as P. revert P. qc2q.
    intros P. apply Qlt_le_weak, Qinv_lt_0_compat, P.
Qed.

(** C5 (amended).  For finite [m], a finite range with [min < max] and a
    non-empty colour scale, [indexFor] is 0 at [m = min], is
    [scale.length - 1] at [m = max], is an integer of
    [[0, scale.length - 1]], and does not decrease when [m] grows. *)
Theorem C5_indexFor_on_a_proper_range : forall a1 a2 b c cs,
  cs <> [] -> (b < c)%Qc ->
  indexFor (Fin b) (Fin b) (Fin c) cs = zero /\
  indexFor (Fin c) (Fin b) (Fin c) cs = (ofNat (List.length cs) - one)%num /\
  (exists k, indexFor (Fin a1) (Fin b) (Fin c) cs = ofZ k /\
             (0 <= k <= Z.of_nat (List.length cs) - 1)%Z) /\
  ((a1 <= a2)%Qc ->
   (indexFor (Fin a1) (Fin b) (Fin c) cs
    <=? indexFor (Fin a2) (Fin b) (Fin c) cs)%num = true).
Proof.
  intros a1 a2 b c cs Hcs Hbc.
  assert (Hlen : (0 <= Z.of_nat (List.length cs) - 1)%Z)
    by (destruct cs; [congruence | cbn [List.length]; lia]).
  rewrite !indexFor_finite by exact Hbc.
  set (l := (Z.of_nat (List.length cs) - 1)%Z) in *.
  split; [|split; [|split]].
  - rewrite position_at_min by exact Hbc. cbn [this Q2Qc Qred].
    change (Qfloor _) with 0%Z. unfold zero. f_equal. lia.
  - rewrite position_at_max by exact Hbc.
    assert (F : Qfloor (Q2Qc (inject_Z l) + Q2Qc (1 # 2))%Qc = l).
    { apply Qfloor_unique; qc2q; rewrite ?inject_Z_plus;
        try change (inject_Z 1) with 1%Q; lra. }
    rewrite F. unfold ofNat, one. rewrite sub_ofZ. fold l. f_equal. lia.
  - eexists. split; [reflexivity|]. lia.
  - intros Ha. rewrite leb_ofZ. apply Z.leb_le.
    assert (M : (Qfloor ((a1 + - b) / (c + - b) * Q2Qc (inject_Z l)
                          + Q2Qc (1 # 2))%Qc
                 <= Qfloor ((a2 + - b) / (c + - b) * Q2Qc (inject_Z l)
                            + Q2Qc (1 # 2))%Qc)%Z).
    { apply Qfloor_resp_le. apply position_monotone; try assumption.
      qc2q. change 0%Q with (inject_Z 0). rewrite <- Zle_Qle. exact Hlen. }
    lia.
Qed.

Lemma C5_witness :
  indexFor (ofZ 3) (ofZ 3) (ofZ 7) exampleScale = zero /\
  indexFor (ofZ 7) (ofZ 3) (ofZ 7) exampleScale = ofZ 2 /\
  (indexFor (ofZ 4) (ofZ 3) (ofZ 7) exampleScale
   <=? indexFor (ofZ 6) (ofZ 3) (ofZ 7) exampleScale)%num = true.
Proof.
  assert (Hcs : exampleScale <> []) by discriminate.
  assert (Hbc : (Q2Qc 3 < Q2Qc 7)%Qc) by reflexivity.
  destruct (C5_indexFor_on_a_proper_range (Q2Qc 4) (Q2Qc 6) _ _ _ Hcs Hbc)
    as [H1 [H2 [_ H4]]].
  split; [exact H1|]. split; [etransitivity; [exact H2 | by_evaluation]|].
  apply H4. discriminate.
Defined.

(** What the division by zero of a degenerate range, [min = max], gives
    on a scale of at least two colours: the last index above [min], the
    first one below. *)
Lemma indexFor_degenerate_range : forall a b cs,
  (2 <= List.length cs)%nat ->
  ((b < a)%Qc ->
   indexFor (Fin a) (Fin b) (Fin b) cs = (ofNat (List.length cs) - one)%num) /\
  ((a < b)%Qc -> indexFor (Fin a) (Fin b) (Fin b) cs = zero).
Proof.
  intros a b cs Hlen. unfold indexFor.
  assert (L : (ofNat (List.length cs) - one)%num
              = ofZ (Z.of_nat (List.length cs) - 1))
    by (unfold ofNat, one; apply sub_ofZ).
  rewrite L. set (l := (Z.of_nat (List.length cs) - 1)%Z).
  assert (Hl : sgn (Q2Qc (inject_Z l)) = Gt).
  { apply sgn_positive. qc2q. change 0%Q with (inject_Z 0).
    rewrite <- Zlt_Qlt. subst l. lia. }
  assert (Z0 : sgn (b + - b)%Qc = Eq).
  { unfold sgn. apply Qceq_alt. ring. }
  unfold sub. cbn [neg add]. unfold div. rewrite Z0. split; intros H.
  - assert (S : sgn (a + - b)%Qc = Gt)
      by (apply sgn_positive, Qc_gap_positive, H).
    rewrite S. cbn [inf_of_signs]. unfold ofZ at 2. cbn [mul sign_of].
    rewrite Hl. cbn [inf_of_signs round].
    change (min (ofZ l) PosInf) with (ofZ l).
    unfold zero. rewrite max_ofZ. f_equal. subst l. lia.
  - assert (S : sgn (a + - b)%Qc = Lt).
    { unfold sgn. apply (proj1 (Qclt_alt _ _)). revert H. qc2q.
      intros H. lra. }
    rewrite S. cbn [inf_of_signs]. unfold ofZ at 2. cbn [mul sign_of].
    rewrite Hl. reflexivity.
Qed.

(** ** C2: interpolation at the grid nodes *)

Lemma C2_counterexample :
  Field_new exampleOptions = Ok exampleField /\
  valueAtIndexes exampleField (ofZ 0) (ofZ 0)
    = Ok (Val (mkVector (ofZ 1) (ofZ 0) (ofZ 1))) /\
  lonLatAtIndexes exampleField (ofZ 0) (ofZ 0) = (ofQ (1 # 2), ofQ (3 # 2)) /\
  interpolatedValueAt exampleField
    (longitudeAtX exampleField (ofZ 0)) (latitudeAtY exampleField (ofZ 0))
    = Some (mkVector (ofZ 0) (ofZ 0) (ofZ 0)) /\
  interpolatedValueAt exampleField
    (longitudeAtX exampleField (ofZ 0)) (latitudeAtY exampleField (ofZ 0))
    <> Some (mkVector (ofZ 1) (ofZ 0) (ofZ 1)).
Proof.
  split; [exact exampleField_built|].
  repeat split; try by_evaluation.
  intro H. vm_compute in H. discriminate H.
Qed.

Lemma sgn_nonzero : forall (y : Qc) (A : Type) (e k : A),
  y <> Q2Qc 0 ->
  match sgn y with Eq => e | _ => k end = k.
Proof.
  intros y A e k H. unfold sgn.
  destruct (y ?= Q2Qc 0)%Qc eqn:E; try reflexivity.
  elim H. apply Qceq_alt, E.
Qed.

Lemma floorMod_small : forall t : Qc,
  (Q2Qc 0 <= t)%Qc -> (t < Q2Qc (inject_Z 360))%Qc ->
  floorMod (Fin t) (ofZ 360) = Fin t.
Proof.
  intros t H0 H1. unfold floorMod, ofZ.
  change (Fin t / Fin (Q2Qc (inject_Z 360)))%num
    with (Fin (t / Q2Qc (inject_Z 360))%Qc).
  assert (F : Qfloor (t / Q2Qc (inject_Z 360))%Qc = 0%Z).
  { apply Qfloor_unique; revert H0 H1; qc2q; intros H0 H1.
    - change (inject_Z 0) with 0%Q.
      apply Qmult_le_0_compat; [exact H0|]. now compute.
    - change (inject_Z (0 + 1)) with 1%Q.
      apply Qlt_shift_div_r; [reflexivity|]. lra. }
  cbn [floor]. rewrite F. unfold sub, ofZ. cbn [mul neg add]. f_equal.
  apply Qc_is_canon. qc2q. change (inject_Z 0) with 0%Q. ring.
Qed.

Lemma mul_one_r : forall a, (a * one)%num = a.
Proof.
  intros [| | |x]; try reflexivity.
  cbn [mul one ofZ]. f_equal. apply Qcmult_1_r.
Qed.

Lemma add_zero_r : forall a, (a + zero)%num = a.
Proof.
  intros [| | |x]; try reflexivity.
  cbn [add zero ofZ]. f_equal. apply Qcplus_0_r.
Qed.

Lemma mul_zero_r : forall a, is_finite a -> (a * zero)%num = zero.
Proof.
  intros [| | |x] H; try destruct H.
  change (Fin (x * Q2Qc 0)%Qc = Fin (Q2Qc 0)). f_equal. apply Qcmult_0_r.
Qed.

Lemma sub_diag_ofNat : forall n, (ofNat n - ofNat n)%num = zero.
Proof. intros n. unfold ofNat. rewrite sub_ofZ, Z.sub_diag. reflexivity. Qed.

(** At a grid node the blend has the weights [1, 0, 0, 0]. *)
Lemma bilinear_at_node : forall g00 g10 g01 g11,
  is_finite (u g10) -> is_finite (v g10) ->
  is_finite (u g01) -> is_finite (v g01) ->
  is_finite (u g11) -> is_finite (v g11) ->
  bilinearInterpolateVector zero zero g00 g10 g01 g11
  = Vector_new (u g00) (v g00).
Proof.
  intros g00 g10 g01 g11 U1 V1 U2 V2 U3 V3.
  unfold bilinearInterpolateVector.
  replace (one - zero)%num with one by by_evaluation.
  replace (one * one)%num with one by by_evaluation.
  replace (zero * one)%num with zero by by_evaluation.
  replace (one * zero)%num with zero by by_evaluation.
  replace (zero * zero)%num with zero by by_evaluation.
  rewrite !mul_one_r, !mul_zero_r, !add_zero_r by assumption.
  reflexivity.
Qed.

Lemma clampRowIndex_inside : forall f j,
  (j < rows f)%nat -> clampRowIndex f (ofNat j) = ofNat j.
Proof.
  intros f j H. unfold clampRowIndex, gtb. rewrite ofNat_ltb_zero.
  unfold ofNat at 1 2, one. rewrite sub_ofZ, ltb_ofZ.
  destruct (Z.ltb_spec (Z.of_nat (rows f) - 1) (Z.of_nat j)); [lia|].
  reflexivity.
Qed.

Lemma corner_built : forall o f i j w,
  Field_new o = Ok f -> corner f i j = Val w -> w = Vector_new (u w) (v w).
Proof.
  intros o f i j w Hnew H. unfold corner in H.
  destruct (grid_row f j) as [row|] eqn:Er; [|discriminate H].
  apply grid_row_In in Er.
  assert (Hx : In (Val w) row).
  { unfold item_at in H. destruct (as_index i); [|discriminate H].
    exact (item_In _ _ _ _ H). }
  destruct (Field_new_grid o f Hnew) as [G [_ [_ [Ec _]]]].
  assert (Hc : isContinuous f = true -> o_cols o <> 0%nat).
  { intros Ht E. rewrite Ec, E, not_continuous_without_columns in Ht.
    discriminate Ht. }
  rewrite G in Er.
  destruct (buildRows_cells _ _ _ _ _ _ _ _ Hc Er Hx) as [q Hq].
  symmetry in Hq. exact (proj2 (proj2 (buildCell_Val _ _ _ _ Hq))).
Qed.

(** The points that [longitudeAtX] and [latitudeAtY] give are the cell
    centres: in a field that is not wrapped their decimal indexes are
    [(i + 1/2, j + 1/2)]. *)
Lemma cell_centre_indexes : forall f i j,
  wrappedX f = false ->
  is_finite (xmin f) -> is_finite (ymax f) ->
  is_finite (deltaX f) -> (zero <? deltaX f)%num = true ->
  ((ofNat i + ofQ (1 # 2)) * deltaX f <? ofZ 360)%num = true ->
  is_finite (deltaY f) -> (deltaY f =? zero)%num = false ->
  getDecimalIndexes f (longitudeAtX f (ofNat i)) (latitudeAtY f (ofNat j))
  = ((ofNat i + ofQ (1 # 2))%num, (ofNat j + ofQ (1 # 2))%num).
Proof.
  intros f i j Hw Fx Fy Fdx Pdx Hspan Fdy Ndy.
  unfold getDecimalIndexes, longitudeAtX, latitudeAtY. rewrite Hw.
  destruct (xmin f) as [| | |x0]; try destruct Fx.
  destruct (ymax f) as [| | |y1]; try destruct Fy.
  destruct (deltaX f) as [| | |dx]; try destruct Fdx.
  destruct (deltaY f) as [| | |dy]; try destruct Fdy.
  unfold zero, ofZ in Pdx. apply ltb_Fin in Pdx.
  unfold ofNat, ofQ, ofZ in Hspan. cbn [add mul] in Hspan.
  apply ltb_Fin in Hspan.
  assert (Hdy : dy <> Q2Qc 0).
  { intros ->. discriminate Ndy. }
  assert (Hdx : dx <> Q2Qc 0).
  { intros E. rewrite E in Pdx. exact (Qclt_not_eq _ _ Pdx eq_refl). }
  assert (H2 : Q2Qc (inject_Z 2) <> Q2Qc 0) by discriminate.
  set (qi := Q2Qc (inject_Z (Z.of_nat i))) in *.
  set (qj := Q2Qc (inject_Z (Z.of_nat j))).
  assert (HI : (Q2Qc 0 <= qi)%Qc).
  { subst qi. apply (Qc_of_Z_le 0). lia. }
  unfold ofNat, ofQ, ofZ, sub, div. fold qi qj.
  rewrite !sgn_nonzero by assumption. cbn [mul add neg].
  assert (Hhalf : Q2Qc (1 # 2) = (/ Q2Qc (inject_Z 2))%Qc)
    by (apply Qc_is_canon; reflexivity).
  assert (E1 : (x0 + dx / Q2Qc (inject_Z 2) + qi * dx + - x0
                = (qi + Q2Qc (1 # 2)) * dx)%Qc).
  { rewrite Hhalf. now field. }
  rewrite E1, floorMod_small.
  - unfold div. rewrite !sgn_nonzero by assumption. f_equal; f_equal.
    + now field.
    + rewrite Hhalf. field. split; assumption.
  - clearbody qi. revert HI Pdx. qc2q. intros HI Pdx.
    apply Qmult_le_0_compat; [lra | apply Qlt_le_weak, Pdx].
  - exact Hspan.
Qed.

(** * More of the code *)

(** ** floorMod and the longitude wrap *)

Lemma floorMod_Fin : forall a n : Qc,
  (Q2Qc 0 < n)%Qc ->
  floorMod (Fin a) (Fin n)
  = Fin (a + - (n * Q2Qc (inject_Z (Qfloor (a / n)%Qc))))%Qc.
Proof.
  intros a n Hn. unfold floorMod, div.
  rewrite (sgn_positive _ Hn). reflexivity.
Qed.

Lemma Qfloor_Zdiv : forall a n : Z,
  (0 < n)%Z ->
  Qfloor (Q2Qc (inject_Z a) / Q2Qc (inject_Z n))%Qc = (a / n)%Z.
Proof.
  intros a n Hn.
  assert (Pn : (0 < inject_Z n)%Q).
  { change 0%Q with (inject_Z 0). rewrite <- Zlt_Qlt. exact Hn. }
  apply Qfloor_unique; qc2q.
  - apply Qle_shift_div_l; [exact Pn|].
    rewrite <- inject_Z_mult, <- Zle_Qle.
    rewrite Z.mul_comm. apply Z.mul_div_le. exact Hn.
  - apply Qlt_shift_div_r; [exact Pn|].
    rewrite <- inject_Z_mult, <- Zlt_Qlt.
    pose proof (Z.mul_succ_div_gt a n Hn). lia.
Qed.

Lemma floorMod_ofZ : forall a n : Z,
  (0 < n)%Z -> floorMod (ofZ a) (ofZ n) = ofZ (a mod n).
Proof.
  intros a n Hn. unfold ofZ.
  rewrite floorMod_Fin by (apply (Qc_of_Z_lt 0); exact Hn).
  rewrite (Qfloor_Zdiv a n Hn). f_equal. apply Qc_is_canon. qc2q.
  rewrite (Z.mod_eq a n) by lia.
  unfold Z.sub. rewrite inject_Z_plus, inject_Z_opp, inject_Z_mult. ring.
Qed.

Lemma floorMod_inside : forall t n : Qc,
  (Q2Qc 0 <= t)%Qc -> (t < n)%Qc -> floorMod (Fin t) (Fin n) = Fin t.
Proof.
  intros t n H0 H1.
  assert (Pn : (Q2Qc 0 < n)%Qc) by (exact (Qcle_lt_trans _ _ _ H0 H1)).
  rewrite (floorMod_Fin t n Pn).
  assert (F : Qfloor (t / n)%Qc = 0%Z).
  { apply Qfloor_unique; revert H0 H1 Pn; qc2q; intros H0 H1 Pn.
    - change (inject_Z 0) with 0%Q.
      apply Qmult_le_0_compat; [exact H0|].
      apply Qlt_le_weak, Qinv_lt_0_compat, Pn.
    - change (inject_Z (0 + 1)) with 1%Q.
      apply Qlt_shift_div_r; [exact Pn|]. lra. }
  rewrite F. f_equal. apply Qc_is_canon. qc2q.
  change (inject_Z 0) with 0%Q. ring.
Qed.

(** X1.  On the integers [floorMod] is the mathematical modulo: for
    integers [a] and [n > 0], of a size below [2^52] on which the division,
    the product and the difference of the source are exact, [floorMod a n]
    is [a mod n], a number of [[0, n)] also for a negative [a].  And
    [floorMod a n] is [a] itself for every finite [a] with [0 <= a < n]:
    the quotient is below 1, and its floor is 0. *)
Theorem floorMod_wraps : forall (a n : Z) (t m : Qc),
  ((Z.abs a < 2 ^ 52)%Z -> (0 < n < 2 ^ 52)%Z ->
   floorMod (ofZ a) (ofZ n) = ofZ (a mod n) /\ (0 <= a mod n < n)%Z) /\
  ((Q2Qc 0 <= t)%Qc -> (t < m)%Qc -> floorMod (Fin t) (Fin m) = Fin t).
Proof.
  intros a n t m. split.
  - intros _ [Hn _]. split; [exact (floorMod_ofZ a n Hn)|].
    apply Z.mod_pos_bound, Hn.
  - apply floorMod_inside.
Qed.

Lemma floorMod_wraps_witness :
  floorMod (ofZ (-10)) (ofZ 360) = ofZ 350 /\
  floorMod (ofQ (1 # 2)) (ofZ 360) = ofQ (1 # 2).
Proof.
  destruct (floorMod_wraps (-10) 360 (Q2Qc (1 # 2)) (Q2Qc (inject_Z 360)))
    as [Hz Hq].
  split.
  - apply Hz; [reflexivity | split; reflexivity].
  - apply Hq; [discriminate | reflexivity].
Defined.

(** X2.  In a field whose [xmin] is an integer, the decimal indexes of an
    integer longitude [l] do not change when [l] is shifted by a full turn
    of 360 degrees, and the column index is [((l - xmin) mod 360) / deltaX]:
    the longitude is taken modulo 360 from the western edge. *)
Theorem getDecimalIndexes_full_turn : forall f (l x0 : Z) lat,
  xmin f = ofZ x0 ->
  (Z.abs l < 2 ^ 51)%Z -> (Z.abs x0 < 2 ^ 51)%Z ->
  getDecimalIndexes f (ofZ l + ofZ 360)%num lat
  = getDecimalIndexes f (ofZ l) lat
  /\ fst (getDecimalIndexes f (ofZ l) lat)
     = (ofZ ((l - x0) mod 360) / deltaX f)%num.
Proof.
  intros f l x0 lat Hx _ _. unfold getDecimalIndexes. rewrite Hx.
  rewrite add_ofZ, !sub_ofZ, !floorMod_ofZ by lia. cbn [fst].
  replace ((l + 360 - x0) mod 360)%Z with ((l - x0) mod 360)%Z.
  - split; reflexivity.
  - replace (l + 360 - x0)%Z with (l - x0 + 1 * 360)%Z by lia.
    now rewrite Z.mod_add by lia.
Qed.

Lemma getDecimalIndexes_full_turn_witness :
  getDecimalIndexes exampleField (ofZ (-1) + ofZ 360)%num (ofZ 1)
  = getDecimalIndexes exampleField (ofZ (-1)) (ofZ 1)
  /\ fst (getDecimalIndexes exampleField (ofZ (-1)) (ofZ 1))
     = (ofZ ((-1 - 0) mod 360) / deltaX exampleField)%num.
Proof.
  apply (getDecimalIndexes_full_turn exampleField (-1) 0 (ofZ 1));
    reflexivity.
Defined.

(** ** The grid, cell by cell *)

Lemma item_buildRow : forall us0 vs0 n p i,
  (i < n)%nat -> item (buildRow us0 vs0 n p) i = buildCell us0 vs0 (p + i).
Proof.
  intros us0 vs0 n. induction n as [|n IH]; intros p i H; [lia|].
  destruct i as [|i].
  - cbn. now rewrite Nat.add_0_r.
  - cbn [buildRow]. unfold item in *. cbn [nth_error].
    rewrite IH by lia. f_equal. lia.
Qed.

Lemma nth_error_buildRows : forall us0 vs0 continuous r c p j,
  (j < r)%nat ->
  nth_error (buildRows us0 vs0 continuous r c p) j
  = Some (let row := buildRow us0 vs0 c (p + j * c) in
          if continuous then row ++ [item row 0] else row).
Proof.
  intros us0 vs0 continuous r c. induction r as [|r IH]; intros p j H; [lia|].
  destruct j as [|j].
  - cbn. now rewrite Nat.add_0_r.
  - cbn [buildRows nth_error]. rewrite IH by lia.
    replace (p + c + j * c)%nat with (p + S j * c)%nat by lia. reflexivity.
Qed.

Lemma buildRows_length : forall us0 vs0 continuous r c p,
  List.length (buildRows us0 vs0 continuous r c p) = r.
Proof.
  intros us0 vs0 continuous r c. induction r as [|r IH]; intros p;
    [reflexivity | cbn; now rewrite IH].
Qed.

Lemma Field_new_samples : forall o f, Field_new o = Ok f ->
  us f = o_us o /\ vs f = o_vs o /\ xmin f = o_xmin o /\ xmax f = o_xmax o
  /\ deltaX f = o_deltaX o /\ deltaY f = o_deltaY o.
Proof.
  intros o f H. unfold Field_new in H.
  destruct (calculateRange _) as [r|e]; [|discriminate H].
  cbn [bind] in H. injection H as <-. cbn. repeat split.
Qed.

Lemma corner_ofNat : forall f i j row,
  nth_error (grid f) j = Some row ->
  corner f (ofNat i) (ofNat j) = item row i.
Proof.
  intros f i j row H. unfold corner, grid_row, item_at.
  now rewrite !as_index_ofNat, H.
Qed.

(** X3.  The grid of a constructed field has [rows] rows, and its cell in
    column [i < cols] of row [j < rows] is made of the samples at position
    [j * cols + i] of [us] and [vs]: the flat arrays are read row by row.
    The cell is a vector when both samples are present and [null]
    otherwise. *)
Theorem grid_is_row_major : forall o f i j,
  Field_new o = Ok f ->
  (i < cols f)%nat -> (j < rows f)%nat ->
  List.length (grid f) = rows f /\
  corner f (ofNat i) (ofNat j) = buildCell (us f) (vs f) (j * cols f + i).
Proof.
  intros o f i j Hnew Hi Hj.
  destruct (Field_new_grid o f Hnew) as [G [C [R _]]].
  destruct (Field_new_samples o f Hnew) as [U [V _]].
  rewrite G, U, V, C, R in *. unfold buildGrid. split.
  - apply buildRows_length.
  - assert (N := nth_error_buildRows (o_us o) (o_vs o) (isContinuous f)
                   (o_rows o) (o_cols o) 0 j Hj).
    cbn zeta in N. cbn [Nat.add] in N.
    unfold corner, grid_row, item_at. rewrite !as_index_ofNat, G.
    unfold buildGrid. rewrite N.
    destruct (isContinuous f).
    + unfold item. rewrite nth_error_app1 by (rewrite buildRow_length; lia).
      apply item_buildRow. exact Hi.
    + apply item_buildRow. exact Hi.
Qed.

Lemma grid_is_row_major_witness :
  corner exampleField (ofNat 1) (ofNat 1)
  = buildCell (us exampleField) (vs exampleField) (1 * cols exampleField + 1).
Proof.
  refine (proj2 (grid_is_row_major exampleOptions exampleField 1 1
                   exampleField_built _ _)); cbn; lia.
Defined.

Lemma grid_nth_row : forall o f j,
  Field_new o = Ok f -> (j < rows f)%nat ->
  exists row,
    nth_error (grid f) j = Some row /\
    List.length row = (if isContinuous f then S (cols f) else cols f).
Proof.
  intros o f j Hnew Hj.
  destruct (Field_new_grid o f Hnew) as [G [C [R _]]].
  rewrite R in Hj.
  assert (N := nth_error_buildRows (o_us o) (o_vs o) (isContinuous f)
                 (o_rows o) (o_cols o) 0 j Hj).
  cbn zeta in N. cbn [Nat.add] in N. unfold buildGrid in G. rewrite <- G in N.
  eexists. split; [exact N|].
  rewrite C. destruct (isContinuous f).
  - rewrite length_app, buildRow_length. cbn. lia.
  - apply buildRow_length.
Qed.

(** X4.  In a continuous field every row has [cols + 1] cells, and the
    cell in the extra column [cols] is the cell of column 0 of the same
    row; in a field that is not continuous every row has [cols] cells. *)
Theorem continuous_grid_repeats_first_column : forall o f j,
  Field_new o = Ok f -> (j < rows f)%nat ->
  exists row,
    nth_error (grid f) j = Some row /\
    List.length row = (if isContinuous f then S (cols f) else cols f) /\
    (isContinuous f = true ->
     corner f (ofNat (cols f)) (ofNat j) = corner f (ofNat 0) (ofNat j)).
Proof.
  intros o f j Hnew Hj.
  destruct (Field_new_grid o f Hnew) as [G [C [R _]]].
  rewrite R in Hj.
  assert (N := nth_error_buildRows (o_us o) (o_vs o) (isContinuous f)
                 (o_rows o) (o_cols o) 0 j Hj).
  cbn zeta in N. cbn [Nat.add] in N. unfold buildGrid in G. rewrite <- G in N.
  eexists. split; [exact N|]. split.
  - rewrite C. destruct (isContinuous f).
    + rewrite length_app, buildRow_length. cbn. lia.
    + apply buildRow_length.
  - intros Hc. rewrite !(corner_ofNat f _ j _ N), Hc, C.
    set (row := buildRow (o_us o) (o_vs o) (o_cols o) (j * o_cols o)).
    assert (L : List.length row = o_cols o) by apply buildRow_length.
    unfold item at 1. rewrite nth_error_app2 by lia.
    rewrite L, Nat.sub_diag. cbn [nth_error].
    unfold item at 2.
    destruct (o_cols o) as [|c] eqn:Ec.
    + destruct row; [reflexivity | discriminate L].
    + rewrite nth_error_app1 by lia. reflexivity.
Qed.

Lemma globeField_built : Field_new globeOptions = Ok globeField.
Proof. by_evaluation. Qed.

Lemma continuous_grid_repeats_first_column_witness :
  corner globeField (ofNat (cols globeField)) (ofNat 0)
  = corner globeField (ofNat 0) (ofNat 0).
Proof.
  destruct (continuous_grid_repeats_first_column globeOptions globeField 0
              globeField_built) as [row [_ [_ H]]]; [cbn; lia|].
  apply H. reflexivity.
Defined.

(** ** Clamping, and the nearest cell *)

Lemma ofZ_ofNat : forall z, (0 <= z)%Z -> ofZ z = ofNat (Z.to_nat z).
Proof. intros z H. unfold ofNat. now rewrite Z2Nat.id. Qed.

Lemma clamp_integer : forall n z,
  (1 <= n)%nat ->
  (if (ofZ z >? ofNat n - one)%num then (ofNat n - one)%num
   else if (ofZ z <? zero)%num then zero else ofZ z)
  = ofZ (Z.max 0 (Z.min (Z.of_nat n - 1) z)).
Proof.
  intros n z Hn. unfold gtb, ofNat, one, zero.
  rewrite sub_ofZ, !ltb_ofZ.
  destruct (Z.ltb_spec (Z.of_nat n - 1) z); [f_equal; lia|].
  destruct (Z.ltb_spec z 0); f_equal; lia.
Qed.

Lemma clampColumnIndex_alt : forall f ii,
  clampColumnIndex f ii
  = if (ii >? ofNat (cols f) - one)%num then (ofNat (cols f) - one)%num
    else if (ii <? zero)%num then zero else ii.
Proof. reflexivity. Qed.

Lemma clampRowIndex_alt : forall f jj,
  clampRowIndex f jj
  = if (jj >? ofNat (rows f) - one)%num then (ofNat (rows f) - one)%num
    else if (jj <? zero)%num then zero else jj.
Proof. reflexivity. Qed.

(** X5.  In a field with at least one column, [clampColumnIndex] maps an
    integer [z] to [max 0 (min (cols - 1) z)], [+Infinity] to [cols - 1]
    and [-Infinity] to 0; [NaN] is not clamped and comes back as [NaN].
    [clampRowIndex] does the same with [rows]. *)
Theorem clamp_indexes : forall f z,
  ((1 <= cols f)%nat ->
   clampColumnIndex f (ofZ z) = ofZ (Z.max 0 (Z.min (Z.of_nat (cols f) - 1) z))
   /\ clampColumnIndex f PosInf = (ofNat (cols f) - one)%num
   /\ clampColumnIndex f NegInf = zero) /\
  ((1 <= rows f)%nat ->
   clampRowIndex f (ofZ z) = ofZ (Z.max 0 (Z.min (Z.of_nat (rows f) - 1) z))
   /\ clampRowIndex f PosInf = (ofNat (rows f) - one)%num
   /\ clampRowIndex f NegInf = zero) /\
  clampColumnIndex f NaN = NaN /\ clampRowIndex f NaN = NaN.
Proof.
  intros f z. split; [|split; [|split; reflexivity]]; intros H.
  - rewrite !clampColumnIndex_alt. split; [apply clamp_integer, H|].
    unfold ofNat, one. rewrite sub_ofZ. split; reflexivity.
  - rewrite !clampRowIndex_alt. split; [apply clamp_integer, H|].
    unfold ofNat, one. rewrite sub_ofZ. split; reflexivity.
Qed.

Lemma clamp_indexes_witness :
  clampColumnIndex exampleField (ofZ 7) = ofZ 1 /\
  clampRowIndex exampleField (ofZ (-3)) = ofZ 0.
Proof.
  destruct (clamp_indexes exampleField 7) as [Hc _].
  destruct (clamp_indexes exampleField (-3)) as [_ [Hr _]].
  split.
  - apply Hc. cbn. lia.
  - apply Hr. cbn. lia.
Defined.

Lemma floor_cases : forall a,
  is_nan a = false ->
  floor a = PosInf \/ floor a = NegInf \/ exists z, floor a = ofZ z.
Proof.
  intros [| | |q] H; [discriminate H | now left | now right; left |].
  right. right. eexists. reflexivity.
Qed.

Lemma Field_new_has_rows : forall o f, Field_new o = Ok f -> (1 <= rows f)%nat.
Proof.
  intros o f H. destruct (Field_new_grid o f H) as [_ [_ [R _]]].
  destruct (o_rows o) as [|r] eqn:E; [|lia].
  unfold Field_new, buildGrid in H. rewrite E in H. discriminate H.
Qed.

Lemma grid_row_inside : forall o f k,
  Field_new o = Ok f -> (k < rows f)%nat ->
  exists row, grid_row f (ofNat k) = Some row.
Proof.
  intros o f k Hnew Hk.
  destruct (grid_nth_row o f k Hnew Hk) as [row [N _]].
  exists row. unfold grid_row. now rewrite as_index_ofNat.
Qed.

Lemma clampRowIndex_floor : forall o f a,
  Field_new o = Ok f -> is_nan a = false ->
  exists k, (k < rows f)%nat /\ clampRowIndex f (floor a) = ofNat k.
Proof.
  intros o f a Hnew Ha. pose proof (Field_new_has_rows o f Hnew) as R.
  rewrite clampRowIndex_alt.
  destruct (floor_cases a Ha) as [E | [E | [z E]]]; rewrite E.
  - exists (rows f - 1)%nat. split; [lia|].
    unfold ofNat, one. rewrite sub_ofZ.
    change (PosInf >? ofZ (Z.of_nat (rows f) - 1))%num with true.
    cbv iota. f_equal. lia.
  - exists 0%nat. split; [lia|].
    unfold ofNat, one. rewrite sub_ofZ. reflexivity.
  - exists (Z.to_nat (Z.max 0 (Z.min (Z.of_nat (rows f) - 1) z))).
    split; [lia|]. rewrite (clamp_integer (rows f) z R).
    apply ofZ_ofNat. lia.
Qed.

(** X6.  On a constructed field [valueAt] throws at exactly one kind of
    point: a point inside [contains] whose decimal row index is [NaN]
    (the clamped row is then [NaN], and [grid[NaN][i]] reads a column of
    [undefined]).  At every other point it returns: [null] outside
    [contains], and the cell of the clamped row otherwise. *)
Theorem valueAt_throws_on_nan_row_only : forall o f lon lat,
  Field_new o = Ok f ->
  (contains f lon lat = true ->
   is_nan (snd (getDecimalIndexes f lon lat)) = true ->
   valueAt f lon lat = Throw TypeError) /\
  (contains f lon lat = false -> valueAt f lon lat = Ok Null) /\
  (is_nan (snd (getDecimalIndexes f lon lat)) = false ->
   exists c, valueAt f lon lat = Ok c).
Proof.
  intros o f lon lat Hnew. unfold valueAt. split; [|split].
  - intros -> Hn. cbn [negb].
    destruct (snd (getDecimalIndexes f lon lat)); try discriminate Hn.
    reflexivity.
  - intros ->. reflexivity.
  - intros Hn. destruct (contains f lon lat); cbn [negb]; [|now exists Null].
    destruct (clampRowIndex_floor o f _ Hnew Hn) as [k [Hk ->]].
    destruct (grid_row_inside o f k Hnew Hk) as [row Er].
    unfold valueAtIndexes. rewrite Er. eexists. reflexivity.
Qed.



Lemma valueAt_throws_on_nan_row_only_witness :
  (exists c, valueAt exampleField (ofZ 1) (ofZ 1) = Ok c) /\
  exists f, Field_new flatOptions = Ok f /\
            valueAt f (ofZ 1) (ofZ 1) = Throw TypeError.
Proof.
  split.
  - apply (proj2 (proj2 (valueAt_throws_on_nan_row_only exampleOptions
                           exampleField (ofZ 1) (ofZ 1) exampleField_built))).
    reflexivity.
  - eexists. split; [vm_compute; reflexivity|].
    match goal with
    | |- valueAt ?f _ _ = _ =>
        assert (B : Field_new flatOptions = Ok f) by (vm_compute; reflexivity);
        apply (proj1 (valueAt_throws_on_nan_row_only flatOptions f
                        (ofZ 1) (ofZ 1) B)); reflexivity
    end.
Defined.

Lemma floor_half : forall n, floor (ofNat n + ofQ (1 # 2))%num = ofNat n.
Proof.
  intros n. unfold ofNat, ofQ, ofZ. cbn [add floor]. unfold ofZ. do 3 f_equal.
  apply Qfloor_unique; qc2q; rewrite ?inject_Z_plus;
    try change (inject_Z 1) with 1%Q; lra.
Qed.

Lemma clampColumnIndex_inside : forall f i,
  (i < cols f)%nat -> clampColumnIndex f (ofNat i) = ofNat i.
Proof.
  intros f i H. unfold clampColumnIndex, gtb. rewrite ofNat_ltb_zero.
  unfold ofNat at 1 2, one. rewrite sub_ofZ, ltb_ofZ.
  destruct (Z.ltb_spec (Z.of_nat (cols f) - 1) (Z.of_nat i)); [lia|].
  reflexivity.
Qed.

(** X7.  In a field that is not wrapped, the nearest-cell lookup at the
    centre of a cell, the point [(longitudeAtX(i), latitudeAtY(j))], reads
    that very cell: [valueAt] and the index-to-coordinate mapping are
    inverse to each other on the cells inside [contains]. *)
Theorem valueAt_at_cell_centre : forall f i j,
  wrappedX f = false ->
  is_finite (xmin f) -> is_finite (ymax f) ->
  is_finite (deltaX f) -> (zero <? deltaX f)%num = true ->
  ((ofNat i + ofQ (1 # 2)) * deltaX f <? ofZ 360)%num = true ->
  is_finite (deltaY f) -> (deltaY f =? zero)%num = false ->
  (i < cols f)%nat -> (j < rows f)%nat ->
  contains f (longitudeAtX f (ofNat i)) (latitudeAtY f (ofNat j)) = true ->
  valueAt f (longitudeAtX f (ofNat i)) (latitudeAtY f (ofNat j))
  = valueAtIndexes f (ofNat i) (ofNat j).
Proof.
  intros f i j Hw Fx Fy Fdx Pdx Hspan Fdy Ndy Hi Hj Hin.
  unfold valueAt. rewrite Hin. cbn [negb]. cbv zeta.
  rewrite cell_centre_indexes by assumption. cbn [fst snd].
  rewrite !floor_half, clampColumnIndex_inside, clampRowIndex_inside
    by assumption.
  reflexivity.
Qed.

Lemma valueAt_at_cell_centre_witness :
  valueAt exampleField (longitudeAtX exampleField (ofNat 0))
    (latitudeAtY exampleField (ofNat 0))
  = Ok (Val (Vector_new (ofZ 1) (ofZ 0))).
Proof.
  rewrite (valueAt_at_cell_centre exampleField 0 0);
    first [by_evaluation | exact I | cbn; lia].
Defined.

(** ** The bilinear blend *)

Lemma mul_zero_r_sub : forall a, is_finite a -> (a * (one - one))%num = zero.
Proof.
  intros a H. replace (one - one)%num with zero by by_evaluation.
  apply mul_zero_r, H.
Qed.

Lemma add_zero_l : forall a, (zero + a)%num = a.
Proof.
  intros [| | |x]; try reflexivity.
  cbn [add zero ofZ]. f_equal. apply Qcplus_0_l.
Qed.

(** X9.  At the four corners of the unit square the blend is the corner
    itself: [(0,0)] gives [g00], [(1,0)] gives [g10], [(0,1)] gives [g01]
    and [(1,1)] gives [g11], when the components of the corners are
    finite. *)
Theorem bilinear_reproduces_corners : forall g00 g10 g01 g11,
  is_finite (u g00) -> is_finite (v g00) ->
  is_finite (u g10) -> is_finite (v g10) ->
  is_finite (u g01) -> is_finite (v g01) ->
  is_finite (u g11) -> is_finite (v g11) ->
  bilinearInterpolateVector zero zero g00 g10 g01 g11
    = Vector_new (u g00) (v g00) /\
  bilinearInterpolateVector one zero g00 g10 g01 g11
    = Vector_new (u g10) (v g10) /\
  bilinearInterpolateVector zero one g00 g10 g01 g11
    = Vector_new (u g01) (v g01) /\
  bilinearInterpolateVector one one g00 g10 g01 g11
    = Vector_new (u g11) (v g11).
Proof.
  intros g00 g10 g01 g11 U0 V0 U1 V1 U2 V2 U3 V3.
  split; [apply bilinear_at_node; assumption|].
  unfold bilinearInterpolateVector.
  replace (one - zero)%num with one by by_evaluation.
  replace (one - one)%num with zero by by_evaluation.
  replace (one * one)%num with one by by_evaluation.
  replace (zero * one)%num with zero by by_evaluation.
  replace (one * zero)%num with zero by by_evaluation.
  replace (zero * zero)%num with zero by by_evaluation.
  rewrite !mul_one_r, !mul_zero_r, !add_zero_r, !add_zero_l by assumption.
  repeat split.
Qed.

Lemma bilinear_reproduces_corners_witness :
  bilinearInterpolateVector one one
    (Vector_new (ofZ 1) (ofZ 0)) (Vector_new (ofZ 0) (ofZ 1))
    (Vector_new (ofZ 0) (ofZ (-1))) (Vector_new (ofZ (-1)) (ofZ 0))
  = Vector_new (ofZ (-1)) (ofZ 0).
Proof.
  exact (proj2 (proj2 (proj2 (bilinear_reproduces_corners
           (Vector_new (ofZ 1) (ofZ 0)) (Vector_new (ofZ 0) (ofZ 1))
           (Vector_new (ofZ 0) (ofZ (-1))) (Vector_new (ofZ (-1)) (ofZ 0))
           I I I I I I I I)))).
Defined.

(** ** The range brackets every magnitude *)

Lemma leb_trans : forall a b c,
  (a <=? b)%num = true -> (b <=? c)%num = true -> (a <=? c)%num = true.
Proof.
  intros [| | |x] [| | |y] [| | |z] H1 H2; try discriminate; try reflexivity.
  apply leb_Fin in H1, H2. apply leb_Fin. exact (Qcle_trans _ _ _ H1 H2).
Qed.

Lemma min_leb_both : forall a b,
  is_nan a = false -> is_nan b = false ->
  (min a b <=? a)%num = true /\ (min a b <=? b)%num = true.
Proof.
  intros [| | |x] [| | |y] Ha Hb; try discriminate; try (split; reflexivity);
    unfold min;
    try (split; [reflexivity | apply leb_Fin, Qcle_refl]);
    try (split; [apply leb_Fin, Qcle_refl | reflexivity]).
  destruct (ltb (Fin y) (Fin x)) eqn:E.
  - apply ltb_Fin in E. split; apply leb_Fin;
      [apply Qclt_le_weak, E | apply Qcle_refl].
  - apply ltb_Fin_false in E. split; apply leb_Fin;
      [apply Qcle_refl | exact E].
Qed.

Lemma max_geb_both : forall a b,
  is_nan a = false -> is_nan b = false ->
  (a <=? max a b)%num = true /\ (b <=? max a b)%num = true.
Proof.
  intros [| | |x] [| | |y] Ha Hb; try discriminate; try (split; reflexivity);
    unfold max;
    try (split; [reflexivity | apply leb_Fin, Qcle_refl]);
    try (split; [apply leb_Fin, Qcle_refl | reflexivity]).
  destruct (ltb (Fin x) (Fin y)) eqn:E.
  - apply ltb_Fin in E. split; apply leb_Fin;
      [apply Qclt_le_weak, E | apply Qcle_refl].
  - apply ltb_Fin_false in E. split; apply leb_Fin;
      [apply Qcle_refl | exact E].
Qed.

Lemma rangeFold_brackets : forall cells acc,
  (forall w, In (Val w) cells ->
     is_nan (if truthy (m w) then m w else magnitude w) = false) ->
  is_nan (fst acc) = false -> is_nan (snd acc) = false ->
  (fst (rangeFold cells acc) <=? fst acc)%num = true /\
  (snd acc <=? snd (rangeFold cells acc))%num = true /\
  forall w, In (Val w) cells ->
    (fst (rangeFold cells acc)
     <=? (if truthy (m w) then m w else magnitude w))%num = true /\
    ((if truthy (m w) then m w else magnitude w)
     <=? snd (rangeFold cells acc))%num = true.
Proof.
  induction cells as [|c cells IH]; intros acc Hgood H1 H2.
  - cbn. split; [apply leb_refl, H1|]. split; [apply leb_refl, H2|].
    intros w [].
  - assert (Hgood' : forall w, In (Val w) cells ->
              is_nan (if truthy (m w) then m w else magnitude w) = false)
      by (intros w Hw; apply Hgood; right; exact Hw).
    unfold rangeFold. cbn [fold_left]. fold (rangeFold cells).
    destruct c as [| |w0].
    + destruct (IH acc Hgood' H1 H2) as [A [B C]].
      split; [exact A|]. split; [exact B|].
      intros w [Hw | Hw]; [discriminate Hw | exact (C w Hw)].
    + destruct (IH acc Hgood' H1 H2) as [A [B C]].
      split; [exact A|]. split; [exact B|].
      intros w [Hw | Hw]; [discriminate Hw | exact (C w Hw)].
    + set (val := if truthy (m w0) then m w0 else magnitude w0) in *.
      assert (Nv : is_nan val = false) by (apply Hgood; left; reflexivity).
      destruct (min_leb_both val (fst acc) Nv H1) as [M1 M2].
      destruct (max_geb_both val (snd acc) Nv H2) as [X1 X2].
      destruct (IH (min val (fst acc), max val (snd acc)) Hgood'
                  (leb_not_nan_l _ _ M1) (leb_not_nan_r _ _ X1)) as [A [B C]].
      cbn [fst snd] in A, B.
      split; [exact (leb_trans _ _ _ A M2)|].
      split; [exact (leb_trans _ _ _ X2 B)|].
      intros w [Hw | Hw]; [|exact (C w Hw)].
      injection Hw as <-. fold val.
      split; [exact (leb_trans _ _ _ A M1) | exact (leb_trans _ _ _ X1 B)].
Qed.

Lemma val_of_built_vector : forall a b,
  (if truthy (m (Vector_new a b)) then m (Vector_new a b)
   else magnitude (Vector_new a b)) = m (Vector_new a b).
Proof.
  intros a b. unfold Vector_new, magnitude. cbn [u v m].
  destruct (truthy _); reflexivity.
Qed.

(** X10.  The range of a constructed field whose samples are not [NaN]
    brackets the magnitude of every cell that holds a vector:
    [range[0] <= m <= range[1]]. *)
Theorem range_brackets_every_cell : forall o f row w,
  Field_new o = Ok f ->
  ~ In (Val NaN) (o_us o) -> ~ In (Val NaN) (o_vs o) ->
  In row (grid f) -> In (Val w) row ->
  (fst (range f) <=? m w)%num = true /\ (m w <=? snd (range f))%num = true.
Proof.
  intros o f row w Hnew Hus Hvs Hrow Hw.
  assert (Hrows : o_rows o <> 0%nat).
  { pose proof (Field_new_has_rows o f Hnew) as R.
    destruct (Field_new_grid o f Hnew) as [_ [_ [E _]]]. lia. }
  destruct (Field_new_succeeds o Hrows) as [f' [Hf' Hr]].
  assert (f' = f) by congruence. subst f'.
  destruct (Field_new_grid o f Hnew) as [G [_ [_ [Ec _]]]].
  assert (Hc : isContinuous f = true -> o_cols o <> 0%nat).
  { intros Ht E. rewrite Ec, E, not_continuous_without_columns in Ht.
    discriminate Ht. }
  assert (Hcell : forall w', In (Val w') (List.concat (grid f)) ->
            w' = Vector_new (u w') (v w') /\
            is_nan (sqrt (u w' * u w' + v w' * v w')%num) = false).
  { intros w' Hw'. apply in_concat in Hw'.
    destruct Hw' as [row' [Hrow' Hw']]. rewrite G in Hrow'.
    destruct (buildRows_cells _ _ _ _ _ _ _ _ Hc Hrow' Hw') as [q Hq].
    symmetry in Hq. destruct (buildCell_Val _ _ _ _ Hq) as [Iu [Iv Ew]].
    split; [exact Ew|]. apply magnitude_not_nan.
    - destruct (u w'); try reflexivity; now elim Hus.
    - destruct (v w'); try reflexivity; now elim Hvs. }
  assert (Hgood : forall w', In (Val w') (List.concat (grid f)) ->
            is_nan (if truthy (m w') then m w' else magnitude w') = false).
  { intros w' Hw'. destruct (Hcell w' Hw') as [Ew M]. rewrite Ew.
    cbn [m Vector_new magnitude u v]. destruct (truthy _); exact M. }
  destruct (rangeFold_brackets (List.concat (grid f)) (PosInf, NegInf) Hgood
              eq_refl eq_refl) as [_ [_ B]].
  assert (Hin : In (Val w) (List.concat (grid f)))
    by (apply in_concat; exists row; split; assumption).
  rewrite Hr. destruct (B w Hin) as [B1 B2].
  destruct (Hcell w Hin) as [Ew _].
  assert (Ev : (if truthy (m w) then m w else magnitude w) = m w).
  { rewrite Ew. apply val_of_built_vector. }
  rewrite Ev in B1, B2. split; assumption.
Qed.

Lemma range_brackets_every_cell_witness :
  (fst (range globeField) <=? m (Vector_new (ofZ 2) (ofZ 0)))%num = true /\
  (m (Vector_new (ofZ 2) (ofZ 0)) <=? snd (range globeField))%num = true.
Proof.
  apply (range_brackets_every_cell globeOptions globeField
           [Val (Vector_new (ofZ 1) (ofZ 0)); Val (Vector_new (ofZ 2) (ofZ 0));
            Val (Vector_new (ofZ 1) (ofZ 0))]
           (Vector_new (ofZ 2) (ofZ 0)) globeField_built).
  - intros H. cbn in H.
    repeat (destruct H as [H | H]; [discriminate H|]). exact H.
  - intros H. cbn in H.
    repeat (destruct H as [H | H]; [discriminate H|]). exact H.
  - left. reflexivity.
  - right. left. reflexivity.
Defined.

(** ** release *)

(** X11.  After [release()] the grid is gone: [interpolatedValueAt] is the
    "no value" result at every point, [valueAt] and [hasValueAt] throw at
    every point inside [contains] (which [release] does not change), and a
    tick of the engine does not throw: it finds no sample and sets the age
    of the particle to [maxAge + 1]. *)
Theorem released_field_has_no_value : forall f lon lat o p,
  interpolatedValueAt (release f) lon lat = None /\
  contains (release f) lon lat = contains f lon lat /\
  (contains f lon lat = true ->
   valueAt (release f) lon lat = Throw TypeError /\
   hasValueAt (release f) lon lat = Throw TypeError) /\
  advect (release f) o p = Ok (set_age p (maxAge o + one)%num).
Proof.
  intros f lon lat o p.
  assert (G : forall j, grid_row (release f) j = None).
  { intros j. unfold grid_row, release. cbn [grid].
    destruct (as_index j) as [[|n]|]; reflexivity. }
  assert (N : forall a b, interpolatedValueAt (release f) a b = None).
  { intros a b. unfold interpolatedValueAt.
    destruct (negb (contains (release f) a b)); [reflexivity|].
    destruct (getDecimalIndexes (release f) a b) as [i j].
    unfold interpolatePoint.
    destruct (getFourSurroundingIndexes (release f) i j) as [[[fi ci] fj] cj].
    unfold getFourSurroundingValues. now rewrite G. }
  split; [apply N|]. split; [reflexivity|]. split.
  - intros Hin.
    assert (V : valueAt (release f) lon lat = Throw TypeError).
    { unfold valueAt. change (contains (release f) lon lat)
        with (contains f lon lat). rewrite Hin. cbn [negb].
      unfold valueAtIndexes. now rewrite G. }
    split; [exact V|]. unfold hasValueAt. now rewrite V.
  - unfold advect. rewrite N. reflexivity.
Qed.

Lemma released_field_has_no_value_witness :
  valueAt (release exampleField) (ofZ 1) (ofZ 1) = Throw TypeError.
Proof.
  apply (proj1 (proj2 (proj2 (released_field_has_no_value exampleField
                                (ofZ 1) (ofZ 1) (exampleEngine one)
                                nodeParticle)))).
  reflexivity.
Defined.

(** ** Seeding *)

Lemma Qfloor_quot : forall q : Q,
  (0 <= q)%Q -> Z.quot (Qnum q) (Z.pos (Qden q)) = Qfloor q.
Proof.
  intros [n d] H. cbn [Qnum Qden Qfloor]. apply Z.quot_div_nonneg; [|lia].
  unfold Qle in H. cbn in H. lia.
Qed.

Lemma toInt32_small : forall q : Qc,
  (Q2Qc 0 <= q)%Qc -> (q < Q2Qc (inject_Z (2 ^ 31)))%Qc ->
  toInt32 (Fin q) = ofZ (Qfloor q) /\ (0 <= Qfloor q < 2 ^ 31)%Z.
Proof.
  intros q H0 H1.
  assert (H0' : (0 <= q)%Q) by (revert H0; qc2q; auto).
  assert (H1' : (q < inject_Z (2 ^ 31))%Q) by (revert H1; qc2q; auto).
  assert (B : (0 <= Qfloor q < 2 ^ 31)%Z).
  { split.
    - change 0%Z with (Qfloor 0). apply Qfloor_resp_le, H0'.
    - pose proof (Qfloor_le q) as F. rewrite Zlt_Qlt. lra. }
  split; [|exact B]. unfold toInt32. rewrite (Qfloor_quot q H0').
  rewrite Z.mod_small by lia.
  destruct (Z.ltb_spec (Qfloor q) (2 ^ 31)); [reflexivity | lia].
Qed.

(** [(Math.random() * n) | 0] for [0 <= r < 1] and [0 < n <= 2^31]: an
    integer of [[0, n)]. *)
Lemma random_index : forall r n,
  unit_interval r = true ->
  (zero <? n)%num = true -> (n <=? ofZ (2 ^ 31))%num = true ->
  exists z, toInt32 (r * n)%num = ofZ z /\ (0 <= z)%Z /\ (ofZ z <? n)%num = true.
Proof.
  intros r n Hr Hn0 Hn1. unfold unit_interval in Hr.
  apply andb_true_iff in Hr. destruct Hr as [R0 R1].
  destruct r as [| | |r]; try discriminate R0; try discriminate R1.
  destruct n as [| | |n]; try discriminate Hn0; try discriminate Hn1.
  unfold zero, one, ofZ in *. apply leb_Fin in R0, Hn1.
  apply ltb_Fin in R1, Hn0. cbn [mul].
  assert (P0 : (Q2Qc 0 <= r * n)%Qc).
  { revert R0 Hn0. qc2q. change (inject_Z 0) with 0%Q. intros R0 Hn0.
    apply Qmult_le_0_compat; lra. }
  assert (P1 : (r * n < n)%Qc).
  { revert R1 Hn0. qc2q. change (inject_Z 1) with 1%Q.
    change (inject_Z 0) with 0%Q. intros R1 Hn0.
    assert (E : (r * n < 1 * n)%Q) by (apply Qmult_lt_compat_r; lra). lra. }
  assert (P2 : (r * n < Q2Qc (inject_Z (2 ^ 31)))%Qc)
    by exact (Qclt_le_trans _ _ _ P1 Hn1).
  destruct (toInt32_small _ P0 P2) as [E B].
  exists (Qfloor (r * n)%Qc). split; [exact E|]. split; [lia|].
  apply ltb_Fin. pose proof (Qfloor_le (r * n)%Qc) as F.
  clear E B P0 P2. set (x := (r * n)%Qc) in *. clearbody x.
  revert P1 F. qc2q. intros P1 F. lra.
Qed.

(** X12.  [assignRandomPosition] draws two random numbers and touches
    only the position of the particle.  When the random numbers are in
    [[0, 1)] and the width and the height in use ([width || cols],
    [height || rows]) are positive and at most [2^31], the pixel handed to
    [unproject] has integer coordinates [i] in [[0, width)] and [j] in
    [[0, height)]; the new position is what [unproject] returns, and the
    centre of the cell [(i, j)] when it returns nothing. *)
Theorem assignRandomPosition_seeds_inside : forall f h k p wd ht,
  unit_interval (random h k) = true ->
  unit_interval (random h (S k)) = true ->
  (zero <? orElse wd (ofNat (cols f)))%num = true ->
  (orElse wd (ofNat (cols f)) <=? ofZ (2 ^ 31))%num = true ->
  (zero <? orElse ht (ofNat (rows f)))%num = true ->
  (orElse ht (ofNat (rows f)) <=? ofZ (2 ^ 31))%num = true ->
  exists i j,
    (0 <= i)%Z /\ (ofZ i <? orElse wd (ofNat (cols f)))%num = true /\
    (0 <= j)%Z /\ (ofZ j <? orElse ht (ofNat (rows f)))%num = true /\
    assignRandomPosition f h k p wd ht
    = (match unproject h (ofZ i, ofZ j) with
       | Some (cx, cy) => mkParticle cx cy (p_xt p) (p_yt p) (p_age p) (p_m p)
       | None =>
           mkParticle (longitudeAtX f (ofZ i)) (latitudeAtY f (ofZ j))
             (p_xt p) (p_yt p) (p_age p) (p_m p)
       end, S (S k)).
Proof.
  intros f h k p wd ht R1 R2 W0 W1 H0 H1.
  destruct (random_index _ _ R1 W0 W1) as [i [Ei [Pi Li]]].
  destruct (random_index _ _ R2 H0 H1) as [j [Ej [Pj Lj]]].
  exists i, j. repeat (split; [assumption|]).
  unfold assignRandomPosition. rewrite Ei, Ej.
  destruct (unproject h (ofZ i, ofZ j)) as [[cx cy]|]; reflexivity.
Qed.

Lemma assignRandomPosition_seeds_inside_witness :
  exists i j,
    (0 <= i)%Z /\ (ofZ i <? ofZ 2)%num = true /\
    (0 <= j)%Z /\ (ofZ j <? ofZ 2)%num = true /\
    assignRandomPosition exampleField exampleHost 0 nodeParticle
      (ofZ 2) (ofZ 2)
    = (match unproject exampleHost (ofZ i, ofZ j) with
       | Some (cx, cy) =>
           mkParticle cx cy (p_xt nodeParticle) (p_yt nodeParticle)
             (p_age nodeParticle) (p_m nodeParticle)
       | None =>
           mkParticle (longitudeAtX exampleField (ofZ i))
             (latitudeAtY exampleField (ofZ j))
             (p_xt nodeParticle) (p_yt nodeParticle)
             (p_age nodeParticle) (p_m nodeParticle)
       end, 2%nat).
Proof.
  apply (assignRandomPosition_seeds_inside exampleField exampleHost 0
           nodeParticle (ofZ 2) (ofZ 2)); reflexivity.
Defined.

(** ** The tick *)

Lemma recycle_count : forall f h o k p,
  snd (recycle f h o k p)
  = if (p_age p >? maxAge o)%num then S (S k) else k.
Proof.
  intros f h o k p. unfold recycle.
  destruct (p_age p >? maxAge o)%num; [|reflexivity].
  apply assignRandomPosition_count.
Qed.

Lemma moveParticle_count : forall f h o k p r,
  moveParticle f h o k p = Ok r ->
  snd r = if (p_age p >? maxAge o)%num then S (S k) else k.
Proof.
  intros f h o k p r H. unfold moveParticle in H.
  pose proof (recycle_count f h o k p) as C.
  destruct (recycle f h o k p) as [p1 k1]. cbn [snd] in C.
  destruct (advect f o p1) as [p2|e]; [|discriminate H].
  cbn [bind] in H. injection H as <-. exact C.
Qed.

(** [moveParticles] returns as many particles as it was given, and calls
    [Math.random()] twice for every particle older than [maxAge]. *)
Lemma moveParticles_keeps_the_pool : forall f h o ps k ps' k',
  moveParticles f h o k ps = Ok (ps', k') ->
  List.length ps' = List.length ps /\
  k' = (k + 2 * List.length (aged o ps))%nat.
Proof.
  intros f h o ps. induction ps as [|p ps IH]; intros k ps' k' H.
  - cbn in H. injection H as <- <-. cbn. split; [reflexivity | lia].
  - cbn [moveParticles] in H.
    destruct (moveParticle f h o k p) as [r|e] eqn:E; [|discriminate H].
    cbn [bind] in H.
    destruct (moveParticles f h o (snd r) ps) as [rs|e] eqn:Es;
      [|discriminate H].
    cbn [bind] in H. injection H as <- <-.
    destruct rs as [qs kq]. destruct (IH _ _ _ Es) as [L K].
    cbn [fst snd List.length]. split; [now rewrite L|].
    rewrite K, (moveParticle_count _ _ _ _ _ _ E). unfold aged.
    cbn [filter]. destruct (p_age p >? maxAge o)%num; cbn [List.length]; lia.
Qed.



(** X13.  A particle on a position without interpolated value is not
    moved by the tick: its age is set to [maxAge] and incremented, its
    target is not staged, the draw step strokes nothing for it, and the
    next tick recycles it. *)
Theorem no_sample_ages_out : forall f h o k p p1 k1 a min0 max0,
  maxAge o = Fin a ->
  recycle f h o k p = (p1, k1) ->
  interpolatedValueAt f (p_x p1) (p_y p1) = None ->
  let p2 := set_age p1 (maxAge o + one)%num in
  moveParticle f h o k p = Ok (p2, k1) /\
  drawParticle h o min0 max0 p2 = (p2, None) /\
  (p_age p2 >? maxAge o)%num = true.
Proof.
  intros f h o k p p1 k1 a min0 max0 Ha Hr Hv p2. split; [|split].
  - unfold moveParticle. rewrite Hr. unfold advect. rewrite Hv. reflexivity.
  - apply drawParticle_too_old. subst p2. cbn [set_age p_age]. rewrite Ha.
    apply succ_leb.
  - subst p2. cbn [set_age p_age]. rewrite Ha. apply succ_gtb.
Qed.

Lemma no_sample_ages_out_witness :
  moveParticle exampleField exampleHost (exampleEngine one) 0
    (mkParticle (ofZ 5) (ofZ 5) Undefined Undefined (ofZ 0) Undefined)
  = Ok (mkParticle (ofZ 5) (ofZ 5) Undefined Undefined (ofZ 60 + one)%num
          Undefined, 0%nat).
Proof.
  refine (proj1 (no_sample_ages_out exampleField exampleHost
                   (exampleEngine one) 0
                   (mkParticle (ofZ 5) (ofZ 5) Undefined Undefined (ofZ 0)
                      Undefined)
                   (mkParticle (ofZ 5) (ofZ 5) Undefined Undefined (ofZ 0)
                      Undefined)
                   0 (Q2Qc 60) zero zero _ _ _)); reflexivity.
Defined.

(** X14.  When the position of a particle has an interpolated value and
    the advected target is covered, the tick stages the target and the
    sampled magnitude, increments the age and leaves the position where
    it is.  The draw step then commits the position to the staged target,
    and strokes the projected segment, when both target coordinates are
    non-zero, the target is visible, the age is at most [maxAge] and both
    projections succeed. *)
Theorem staged_target_is_committed_by_draw :
  forall f h o k p p1 k1 vec a b min0 max0,
  recycle f h o k p = (p1, k1) ->
  interpolatedValueAt f (p_x p1) (p_y p1) = Some vec ->
  let xt := (p_x p1 + u vec * velocityScale o)%num in
  let yt := (p_y p1 + v vec * velocityScale o)%num in
  hasValueAt f xt yt = Ok true ->
  let q := mkParticle (p_x p1) (p_y p1) (Val xt) (Val yt)
             (p_age p1 + one)%num (Val (m vec)) in
  moveParticle f h o k p = Ok (q, k1) /\
  (truthy xt = true -> truthy yt = true ->
   intersectsCoordinate h (xt, yt) = true ->
   (p_age p1 + one <=? maxAge o)%num = true ->
   project h (p_x p1, p_y p1) = Some a -> project h (xt, yt) = Some b ->
   drawParticle h o min0 max0 q
   = (mkParticle xt yt (Val xt) (Val yt) (p_age p1 + one)%num (Val (m vec)),
      Some (mkSegment a b (strokeStyleFor o q min0 max0)))).
Proof.
  intros f h o k p p1 k1 vec a b min0 max0 Hr Hv xt yt Hh q. split.
  - unfold moveParticle. rewrite Hr. unfold advect. rewrite Hv.
    cbn [bind]. fold xt yt. rewrite Hh. reflexivity.
  - intros Hxt Hyt Hvis Hold Ha Hb.
    unfold drawParticle, drawCoordsParticle. subst q.
    cbn [p_x p_y p_xt p_yt p_age p_m present toNumber fst snd].
    rewrite Hxt, Hyt, Hvis, Hold, Ha, Hb. reflexivity.
Qed.

Lemma staged_target_is_committed_by_draw_witness :
  moveParticle exampleField exampleHost (exampleEngine (ofQ (1 # 2))) 0
    nodeParticle
  = Ok (mkParticle (ofZ 1) (ofZ 1)
          (Val (ofZ 1 + u (Vector_new (ofZ (-1)) (ofZ 0)) * ofQ (1 # 2))%num)
          (Val (ofZ 1 + v (Vector_new (ofZ (-1)) (ofZ 0)) * ofQ (1 # 2))%num)
          (ofZ 0 + one)%num (Val (m (Vector_new (ofZ (-1)) (ofZ 0)))), 0%nat).
Proof.
  refine (proj1 (staged_target_is_committed_by_draw exampleField exampleHost
            (exampleEngine (ofQ (1 # 2))) 0 nodeParticle nodeParticle 0
            (Vector_new (ofZ (-1)) (ofZ 0)) (ofZ 0, ofZ 0) (ofZ 0, ofZ 0)
            zero zero _ _ _)); by_evaluation.
Defined.

Ltac nothing_stroked :=
  cbn [fst snd];
  do 4 (split; [reflexivity|]); split; [intros _; reflexivity|];
  intros sg H; discriminate H.

(** X15.  The draw step never changes the age, the staged target or the
    magnitude of a particle.  It changes the position only when it strokes
    a segment, and then to the staged target; a segment is stroked only
    for a particle with both target coordinates present and non-zero, a
    visible target, an age of at most [maxAge] and two successful
    projections, which are the ends of the segment. *)
Theorem draw_moves_only_what_it_strokes : forall h o min0 max0 p,
  let r := drawParticle h o min0 max0 p in
  p_age (fst r) = p_age p /\ p_xt (fst r) = p_xt p /\
  p_yt (fst r) = p_yt p /\ p_m (fst r) = p_m p /\
  (snd r = None -> fst r = p) /\
  (forall sg, snd r = Some sg ->
     present (p_xt p) = true /\ present (p_yt p) = true /\
     intersectsCoordinate h (toNumber (p_xt p), toNumber (p_yt p)) = true /\
     (p_age p <=? maxAge o)%num = true /\
     project h (p_x p, p_y p) = Some (seg_from sg) /\
     project h (toNumber (p_xt p), toNumber (p_yt p)) = Some (seg_to sg) /\
     p_x (fst r) = toNumber (p_xt p) /\ p_y (fst r) = toNumber (p_yt p)).
Proof.
  intros h o min0 max0 p. unfold drawParticle, drawCoordsParticle.
  destruct (present (p_xt p)); cbn [negb fst snd];
    [|nothing_stroked].
  destruct (present (p_yt p)); cbn [negb fst snd];
    [|nothing_stroked].
  destruct (intersectsCoordinate h _); cbn [andb];
    [|nothing_stroked].
  destruct (p_age p <=? maxAge o)%num; [|nothing_stroked].
  destruct (project h (p_x p, p_y p)) as [a|]; [|nothing_stroked].
  destruct (project h (toNumber (p_xt p), toNumber (p_yt p))) as [b|];
    [|nothing_stroked].
  cbn [fst snd p_age p_xt p_yt p_m p_x p_y].
  do 4 (split; [reflexivity|]). split; [intros H; discriminate H|].
  intros sg H. injection H as <-. cbn [seg_from seg_to]. repeat split.
Qed.

Lemma drawParticles_loop_lengths : forall h o min0 max0 ps,
  List.length (fst (drawParticles_loop h o min0 max0 ps)) = List.length ps /\
  (List.length (snd (drawParticles_loop h o min0 max0 ps))
   <= List.length ps)%nat.
Proof.
  intros h o min0 max0 ps. induction ps as [|p ps [IH1 IH2]];
    [split; [reflexivity | apply le_n]|].
  cbn [drawParticles_loop].
  destruct (drawParticle h o min0 max0 p) as [p' s].
  destruct (drawParticles_loop h o min0 max0 ps) as [qs ss].
  cbn [fst snd List.length] in *. split; [now rewrite IH1|].
  destruct s; cbn [List.length]; lia.
Qed.

(** X16.  A call of [render()] that does not throw returns the pool with
    as many particles as before and at most one segment for each of them,
    and it has called [Math.random()] twice for every particle that was
    older than [maxAge] when the tick began. *)
Theorem render_keeps_the_pool : forall f h o k ps ps' segs k',
  render f h o k ps = Ok (ps', segs, k') ->
  List.length ps' = List.length ps /\
  (List.length segs <= List.length ps)%nat /\
  k' = (k + 2 * List.length (aged o ps))%nat.
Proof.
  intros f h o k ps ps' segs k' H. unfold render in H.
  destruct (moveParticles f h o k ps) as [[qs kq]|e] eqn:E; [|discriminate H].
  cbn [bind fst snd] in H.
  destruct (moveParticles_keeps_the_pool _ _ _ _ _ _ _ E) as [L K].
  pose proof (drawParticles_loop_lengths h o (fst (range f)) (snd (range f)) qs)
    as [D1 D2].
  unfold drawParticles in H.
  destruct (drawParticles_loop h o (fst (range f)) (snd (range f)) qs)
    as [rs ss].
  injection H as <- <- <-. cbn [fst snd] in D1, D2.
  split; [congruence|]. split; [lia | exact K].
Qed.

Lemma render_keeps_the_pool_witness :
  exists ps' segs k',
    render exampleField exampleHost (exampleEngine one) 0
      [agedParticle; nodeParticle] = Ok (ps', segs, k') /\
    List.length ps' = 2%nat /\ (List.length segs <= 2)%nat /\ k' = 2%nat.
Proof.
  do 3 eexists. split; [vm_compute; reflexivity|].
  match goal with
  | |- List.length ?a = _ /\ (List.length ?s <= _)%nat /\ ?b = _ =>
      assert (B : render exampleField exampleHost (exampleEngine one) 0
                    [agedParticle; nodeParticle] = Ok (a, s, b))
        by (vm_compute; reflexivity);
      exact (render_keeps_the_pool _ _ _ _ _ _ _ _ B)
  end.
Defined.

(** ** The colour of a segment *)

(** X17.  With a list of colours, a finite magnitude and a finite range
    [min < max], the colour index names an element of the list: the stroke
    style of the particle is one of the colours, never [undefined]. *)
Theorem stroke_style_is_a_colour_of_the_scale : forall o p a b c cs,
  colorScale o = ColorList cs -> cs <> [] ->
  p_m p = Val (Fin a) -> (b < c)%Qc ->
  exists col, strokeStyleFor o p (Fin b) (Fin c) = Val col /\ In col cs.
Proof.
  intros o p a b c cs Hs Hcs Hm Hbc. unfold strokeStyleFor.
  rewrite Hs, Hm. cbn [toNumber]. rewrite indexFor_finite by exact Hbc.
  assert (Hlen : (0 < Z.of_nat (List.length cs))%Z)
    by (destruct cs; [congruence | cbn [List.length]; lia]).
  set (k := Z.max 0 (Z.min (Z.of_nat (List.length cs) - 1) _)).
  assert (Hk : (0 <= k < Z.of_nat (List.length cs))%Z) by lia.
  clearbody k. rewrite (ofZ_ofNat k) by lia. unfold color_at.
  rewrite as_index_ofNat.
  destruct (nth_error cs (Z.to_nat k)) as [col|] eqn:E.
  - exists col. split; [reflexivity | exact (nth_error_In _ _ E)].
  - apply nth_error_None in E. lia.
Qed.

Lemma stroke_style_is_a_colour_of_the_scale_witness :
  exists col,
    strokeStyleFor
      (mkParticleOptions (ofQ (9 # 10)) (ofZ 3) (ColorList exampleScale)
         one (ofZ 60) 1 (ofZ 20))
      (mkParticle zero zero Undefined Undefined zero (Val (ofZ 5)))
      (ofZ 3) (ofZ 7) = Val col /\ In col exampleScale.
Proof.
  apply (stroke_style_is_a_colour_of_the_scale _ _ (Q2Qc (inject_Z 5))
           (Q2Qc (inject_Z 3)) (Q2Qc (inject_Z 7)) exampleScale);
    try reflexivity. discriminate.
Defined.

(** ** The first pool *)

Lemma assignRandomPosition_keeps : forall f h k p w ht,
  let q := fst (assignRandomPosition f h k p w ht) in
  p_xt q = p_xt p /\ p_yt q = p_yt p /\ p_m q = p_m p /\ p_age q = p_age p.
Proof.
  intros. subst q. unfold assignRandomPosition.
  destruct (unproject h _) as [[cx cy]|]; repeat split.
Qed.

Lemma random_age : forall r a,
  unit_interval r = true -> (Q2Qc 0 < a)%Qc ->
  (zero <=? floor (r * Fin a))%num = true /\
  (floor (r * Fin a) <? Fin a)%num = true.
Proof.
  intros r a Hr Ha. unfold unit_interval in Hr.
  apply andb_true_iff in Hr. destruct Hr as [R0 R1].
  destruct r as [| | |r]; try discriminate R0; try discriminate R1.
  unfold zero, one, ofZ in *. apply leb_Fin in R0. apply ltb_Fin in R1.
  cbn [mul floor]. unfold ofZ.
  pose proof (Qfloor_le (r * a)%Qc) as F1.
  assert (F0 : (0 <= Qfloor (r * a)%Qc)%Z).
  { change 0%Z with (Qfloor 0). apply Qfloor_resp_le.
    revert R0 Ha. qc2q. change (inject_Z 0) with 0%Q. intros R0 Ha.
    apply Qmult_le_0_compat; lra. }
  assert (P1 : (r * a < a)%Qc).
  { revert R1 Ha. qc2q. change (inject_Z 1) with 1%Q. intros R1 Ha.
    assert (E : (r * a < 1 * a)%Q) by (apply Qmult_lt_compat_r; lra). lra. }
  split.
  - apply leb_Fin. apply (Qc_of_Z_le 0). exact F0.
  - apply ltb_Fin. clear F0. set (x := (r * a)%Qc) in *. clearbody x.
    revert P1 F1. qc2q. intros P1 F1. lra.
Qed.

Lemma prepareParticles_loop_fresh : forall f h o a n k ps k',
  maxAge o = Fin a -> (Q2Qc 0 < a)%Qc ->
  (forall i, unit_interval (random h i) = true) ->
  prepareParticles_loop f h o n k = (ps, k') ->
  List.length ps = n /\ k' = (k + 3 * n)%nat /\
  forall p, In p ps ->
    p_xt p = Undefined /\ p_yt p = Undefined /\ p_m p = Undefined /\
    (zero <=? p_age p)%num = true /\ (p_age p <? maxAge o)%num = true.
Proof.
  intros f h o a n. induction n as [|n IH]; intros k ps k' Ha Pa Hr H.
  - cbn in H. injection H as <- <-. cbn. repeat split; try lia.
    all: destruct H.
  - cbn [prepareParticles_loop] in H.
    set (p0 := mkParticle zero zero Undefined Undefined (getRandomAge h o k)
                 Undefined) in H.
    pose proof (assignRandomPosition_keeps f h (S k) p0
                  (canvas_width h) (canvas_height h)) as K.
    pose proof (assignRandomPosition_count f h (S k) p0
                  (canvas_width h) (canvas_height h)) as C.
    destruct (assignRandomPosition f h (S k) p0 _ _) as [p1 k1].
    cbn [fst snd] in K, C. subst k1.
    destruct (prepareParticles_loop f h o n (S (S (S k)))) as [qs k2] eqn:E.
    injection H as <- <-.
    destruct (IH _ _ _ Ha Pa Hr E) as [L [Ek Hp]].
    cbn [List.length]. split; [now rewrite L|]. split; [lia|].
    intros p [<- | Hin]; [|exact (Hp p Hin)].
    destruct K as [K1 [K2 [K3 K4]]]. rewrite K1, K2, K3, K4. subst p0.
    cbn [p_xt p_yt p_m p_age]. repeat split.
    + unfold getRandomAge. rewrite Ha. apply random_age; [apply Hr | exact Pa].
    + unfold getRandomAge. rewrite Ha. apply random_age; [apply Hr | exact Pa].
Qed.

(** X18.  [prepareParticles] builds a pool of [paths] particles and calls
    [Math.random()] three times for each.  With random numbers in
    [[0, 1)] and a finite [maxAge > 0], every particle starts without a
    staged target and with an age in [[0, maxAge)], so that the first tick
    recycles none of them. *)
Theorem prepareParticles_fresh_pool : forall f h o a k ps k',
  maxAge o = Fin a -> (Q2Qc 0 < a)%Qc ->
  (forall i, unit_interval (random h i) = true) ->
  prepareParticles f h o k = (ps, k') ->
  List.length ps = paths o /\ k' = (k + 3 * paths o)%nat /\
  (forall p, In p ps ->
     p_xt p = Undefined /\ p_yt p = Undefined /\ p_m p = Undefined /\
     (zero <=? p_age p)%num = true /\ (p_age p <? maxAge o)%num = true) /\
  aged o ps = [].
Proof.
  intros f h o a k ps k' Ha Pa Hr H.
  destruct (prepareParticles_loop_fresh f h o a _ _ _ _ Ha Pa Hr H)
    as [L [K Hp]].
  repeat (split; [assumption|]).
  unfold aged. clear L K H. induction ps as [|p ps IH]; [reflexivity|].
  cbn [filter]. destruct (Hp p (or_introl eq_refl)) as [_ [_ [_ [H0 Hlt]]]].
  assert (E : (p_age p >? maxAge o)%num = false).
  { unfold gtb. rewrite Ha in *.
    destruct (p_age p) as [| | |x]; try discriminate Hlt; try discriminate H0.
    apply ltb_Fin in Hlt. apply ltb_Fin_false, Qclt_le_weak, Hlt. }
  rewrite E. apply IH. intros q Hq. apply Hp. right. exact Hq.
Qed.

Lemma prepareParticles_fresh_pool_witness :
  exists ps k',
    prepareParticles exampleField exampleHost (exampleEngine one) 0 = (ps, k')
    /\ List.length ps = 1%nat /\ k' = 3%nat
    /\ aged (exampleEngine one) ps = [].
Proof.
  do 2 eexists. split; [vm_compute; reflexivity|].
  match goal with
  | |- List.length ?a = _ /\ ?b = _ /\ _ =>
      assert (B : prepareParticles exampleField exampleHost
                    (exampleEngine one) 0 = (a, b))
        by (vm_compute; reflexivity);
      destruct (prepareParticles_fresh_pool exampleField exampleHost
                  (exampleEngine one) (Q2Qc 60) 0 a b eq_refl eq_refl
                  (fun _ => eq_refl) B) as [L [K [_ G]]];
      repeat split; assumption
  end.
Defined.

(** ** The frame pacer *)

Lemma rem_positive : forall d F : Qc,
  (Q2Qc 0 <= d)%Qc -> (Q2Qc 0 < F)%Qc ->
  rem (Fin d) (Fin F)
  = Fin (d - F * Q2Qc (inject_Z (Qfloor (d / F)%Qc)))%Qc.
Proof.
  intros d F Hd HF. unfold rem. rewrite (sgn_positive _ HF). cbv zeta.
  rewrite Qfloor_quot; [reflexivity|].
  revert Hd HF. qc2q. intros Hd HF.
  apply Qmult_le_0_compat; [exact Hd|].
  apply Qlt_le_weak, Qinv_lt_0_compat, HF.
Qed.

Lemma rem_ofZ : forall d F : Z,
  (0 <= d)%Z -> (0 < F)%Z -> rem (ofZ d) (ofZ F) = ofZ (d mod F).
Proof.
  intros d F Hd HF. unfold ofZ.
  rewrite rem_positive
    by first [apply (Qc_of_Z_le 0); exact Hd | apply (Qc_of_Z_lt 0); exact HF].
  rewrite (Qfloor_Zdiv d F HF). f_equal. apply Qc_is_canon. qc2q.
  rewrite (Z.mod_eq d F) by lia.
  unfold Z.sub. rewrite inject_Z_plus, inject_Z_opp, inject_Z_mult. ring.
Qed.

(** X19.  The times of [animate] are the whole milliseconds of
    [Date.now()].  With a frame interval of [F > 0] whole milliseconds,
    [animate] does nothing while no more than [F] has passed since
    [_then].  Otherwise it renders once and moves [_then] forward by a
    whole number [n >= 1] of intervals, to the last multiple that is not
    after [now]: [now - F < _then <= now]. *)
Theorem animate_paces : forall o (t0 t1 F : Z),
  frameRate o = ofZ F -> (0 < F)%Z ->
  ((t1 - t0 <= F)%Z -> animate o (ofZ t0) (ofZ t1) = (ofZ t0, false)) /\
  ((F < t1 - t0)%Z ->
   exists n,
     animate o (ofZ t0) (ofZ t1) = (ofZ (t0 + F * n), true) /\
     (1 <= n)%Z /\ (t1 - F < t0 + F * n <= t1)%Z).
Proof.
  intros o t0 t1 F HF PF. unfold animate. rewrite HF, sub_ofZ. unfold gtb.
  rewrite ltb_ofZ. split; intros H.
  - destruct (Z.ltb_spec F (t1 - t0)); [lia | reflexivity].
  - destruct (Z.ltb_spec F (t1 - t0)); [|lia].
    rewrite rem_ofZ, sub_ofZ by lia.
    exists ((t1 - t0) / F)%Z.
    pose proof (Z.div_mod (t1 - t0) F ltac:(lia)) as E.
    pose proof (Z.mod_pos_bound (t1 - t0) F PF) as B.
    split; [do 2 f_equal; lia|].
    split; [|lia].
    apply Z.div_le_lower_bound; lia.
Qed.

Lemma animate_paces_witness :
  exists n,
    animate (exampleEngine one) (ofZ 100) (ofZ 150)
    = (ofZ (100 + 20 * n), true) /\
    (1 <= n)%Z /\ (150 - 20 < 100 + 20 * n <= 150)%Z.
Proof.
  apply (proj2 (animate_paces (exampleEngine one) 100 150 20
                  eq_refl eq_refl)).
  reflexivity.
Defined.

(** X20.  A frame interval of 0 stops the animation after one frame: the
    first call that finds [now] after [_then] renders and sets [_then] to
    [now - delta % 0], which is [NaN], and from a [_then] that is [NaN]
    no call of [animate] renders any more, whatever [now] and the frame
    interval are. *)
Theorem animate_zero_interval_stalls : forall o t0 t1,
  frameRate o = zero -> (t0 < t1)%Qc ->
  animate o (Fin t0) (Fin t1) = (NaN, true) /\
  forall o' now, animate o' NaN now = (NaN, false).
Proof.
  intros o t0 t1 HF H. split.
  - unfold animate. rewrite HF. unfold gtb, sub. cbn [neg add].
    assert (L : ltb zero (Fin (t1 + - t0)%Qc) = true).
    { apply ltb_Fin. apply Qc_gap_positive, H. }
    rewrite L. reflexivity.
  - intros o' now. unfold animate.
    replace (now - NaN)%num with NaN by (destruct now; reflexivity).
    unfold gtb. destruct (frameRate o'); reflexivity.
Qed.

Lemma animate_zero_interval_stalls_witness :
  animate (mkParticleOptions one one (SingleColor "#fff") one (ofZ 60) 1 zero)
    (ofZ 100) (ofZ 101) = (NaN, true)
  /\ animate (exampleEngine one) NaN (ofZ 102) = (NaN, false).
Proof.
  destruct (animate_zero_interval_stalls
              (mkParticleOptions one one (SingleColor "#fff") one
                 (ofZ 60) 1 zero)
              (Q2Qc 100) (Q2Qc 101) eq_refl eq_refl) as [H1 H2].
  split; [exact H1 | exact (H2 (exampleEngine one) (ofZ 102))].
Defined.

(** ** createFieldFromGFS *)

Lemma components_exclude : forall r,
  isUComponent r = true -> isVComponent r = false.
Proof.
  intros r H. unfold isUComponent, isVComponent in *.
  apply andb_true_iff in H. destruct H as [_ H].
  destruct (parameterNumber (header r)) as [| | |x]; try discriminate H.
  unfold ofZ in H. apply eqb_Fin in H. subst x.
  apply andb_false_r.
Qed.

Lemma pickComponents_last : forall records,
  pickComponents records
  = (find isUComponent (rev records), find isVComponent (rev records)).
Proof.
  intros records. unfold pickComponents.
  induction records as [|r records IH] using rev_ind; [reflexivity|].
  rewrite fold_left_app, rev_app_distr. cbn [fold_left rev app find].
  rewrite IH. cbn [fst snd].
  destruct (isUComponent r) eqn:EU.
  - now rewrite (components_exclude r EU).
  - destruct (isVComponent r); reflexivity.
Qed.

(** X21.  [createFieldFromGFS] constructs the field from the last record
    of the [u] component (category 1 or 2, number 2) and the last record
    of the [v] component (category 1 or 2, number 3): the geometry comes
    from the header of the [u] record, the samples from both.  It throws
    "invalid data", before any field is built, when the file has no [u]
    record or no [v] record. *)
Theorem createFieldFromGFS_uses_the_last_records : forall records,
  createFieldFromGFS records
  = match find isUComponent (rev records),
          find isVComponent (rev records) with
    | Some uComp, Some vComp => Field_new (optionsOfGFS uComp vComp)
    | _, _ => Throw "invalid data"
    end /\
  (existsb isUComponent records = false \/
   existsb isVComponent records = false ->
   createFieldFromGFS records = Throw "invalid data").
Proof.
  intros records.
  assert (E : createFieldFromGFS records
              = match find isUComponent (rev records),
                      find isVComponent (rev records) with
                | Some uComp, Some vComp => Field_new (optionsOfGFS uComp vComp)
                | _, _ => Throw "invalid data"
                end).
  { unfold createFieldFromGFS. rewrite pickComponents_last.
    destruct (find isUComponent (rev records)) as [uC|]; [|reflexivity].
    destruct (find isVComponent (rev records)) as [vC|]; reflexivity. }
  split; [exact E|]. rewrite E.
  assert (N : forall test, existsb test records = false ->
                find test (rev records) = None).
  { intros test H.
    destruct (find test (rev records)) as [r|] eqn:F; [|reflexivity].
    apply find_some in F. destruct F as [Hin Ht]. apply in_rev in Hin.
    assert (X : existsb test records = true)
      by (apply existsb_exists; exists r; split; assumption).
    congruence. }
  intros [H | H]; rewrite (N _ H); [reflexivity|].
  destruct (find isUComponent (rev records)); reflexivity.
Qed.

Lemma createFieldFromGFS_uses_the_last_records_witness :
  createFieldFromGFS [exampleURecord] = Throw "invalid data" /\
  createFieldFromGFS [exampleVRecord; exampleURecord; exampleVRecord]
  = Ok exampleField.
Proof.
  split.
  - apply (proj2 (createFieldFromGFS_uses_the_last_records [exampleURecord])).
    right. reflexivity.
  - rewrite (proj1 (createFieldFromGFS_uses_the_last_records
                      [exampleVRecord; exampleURecord; exampleVRecord])).
    exact exampleField_built.
Defined.

(** ** Interpolated value and nearest value *)

Lemma as_index_inv : forall a n, as_index a = Some n -> a = ofNat n.
Proof.
  intros [| | |q] n H; try discriminate H. unfold as_index in H.
  destruct (Z.eqb_spec (Z.pos (Qden q)) 1) as [D|]; [|discriminate H].
  destruct (Z.leb_spec 0 (Qnum q)); [|discriminate H].
  cbn [andb] in H. injection H as <-. unfold ofNat, ofZ. f_equal.
  apply Qc_is_canon. rewrite this_inject_Z, Z2Nat.id by assumption.
  destruct q as [[qn qd] c]. cbn in *. injection D as ->. reflexivity.
Qed.

(** X22.  On a constructed field that is not continuous the interpolation
    is stricter than the nearest-cell lookup: wherever
    [interpolatedValueAt] has a value, [hasValueAt] is true.  Every row
    has [cols] cells, so a floor corner that holds a vector lies in a
    column below [cols], and it is the cell that [valueAt] reads. *)
Theorem interpolated_value_implies_nearest_value : forall o f lon lat w,
  Field_new o = Ok f ->
  isContinuous f = false ->
  interpolatedValueAt f lon lat = Some w ->
  hasValueAt f lon lat = Ok true.
Proof.
  intros o f lon lat w Hnew Hc H. unfold interpolatedValueAt in H.
  destruct (contains f lon lat) eqn:Hin; [|discriminate H]. cbn [negb] in H.
  destruct (getDecimalIndexes f lon lat) as [i j] eqn:Ed.
  unfold interpolatePoint, getFourSurroundingIndexes in H.
  rewrite getFourSurroundingValues_corners in H.
  set (fj := clampRowIndex f (floor j)) in *.
  destruct (corner f (floor i) fj) as [| |g00] eqn:C00; try discriminate H.
  clear H. unfold corner in C00.
  destruct (grid_row f fj) as [row|] eqn:Er; [|discriminate C00].
  assert (Hidx : exists n, as_index (floor i) = Some n).
  { unfold item_at in C00. destruct (as_index (floor i)) as [n|];
      [now exists n | discriminate C00]. }
  destruct Hidx as [n Hn].
  assert (Hlt : (n < cols f)%nat).
  { destruct (Field_new_grid o f Hnew) as [G [C _]].
    pose proof (grid_row_In _ _ _ Er) as Hrow. rewrite G, Hc in Hrow.
    apply buildRows_row_length in Hrow.
    unfold item_at in C00. rewrite Hn in C00. unfold item in C00.
    destruct (nth_error row n) eqn:E; [|discriminate C00].
    assert (n < List.length row)%nat
      by (apply nth_error_Some; congruence).
    lia. }
  unfold hasValueAt, valueAt. rewrite Hin, Ed. cbn [negb fst snd].
  rewrite (as_index_inv _ _ Hn), clampColumnIndex_inside by exact Hlt.
  fold fj. unfold valueAtIndexes. rewrite Er.
  rewrite (as_index_inv _ _ Hn) in C00. rewrite C00. reflexivity.
Qed.

Lemma interpolated_value_implies_nearest_value_witness :
  hasValueAt exampleField (ofQ (1 # 2)) (ofQ (3 # 2)) = Ok true.
Proof.
  apply (interpolated_value_implies_nearest_value exampleOptions exampleField
           (ofQ (1 # 2)) (ofQ (3 # 2)) (mkVector (ofZ 0) (ofZ 0) (ofZ 0))
           exampleField_built eq_refl).
  by_evaluation.
Defined.

(** ** The east neighbour *)

Lemma succ_ofNat : forall n, (ofNat n + one)%num = ofNat (S n).
Proof.
  intros n. unfold ofNat, one. rewrite add_ofZ. f_equal. lia.
Qed.

(** X23.  The column to the east of the last one.  When the floor column
    of the interpolation is the last column, [cols - 1], the east corner
    is column 0 in a continuous field (the grid wraps around), and the
    last column itself in a field that is not continuous (the two east
    corners repeat the two west ones). *)
Theorem east_of_the_last_column : forall f i j,
  (1 <= cols f)%nat ->
  floor i = ofNat (cols f - 1) ->
  getFourSurroundingIndexes f i j
  = (ofNat (cols f - 1),
     if isContinuous f then zero else ofNat (cols f - 1),
     clampRowIndex f (floor j),
     clampRowIndex f (clampRowIndex f (floor j) + one)%num).
Proof.
  intros f i j Hc Hi. unfold getFourSurroundingIndexes. rewrite Hi.
  rewrite succ_ofNat. replace (S (cols f - 1)) with (cols f) by lia.
  assert (G : (ofNat (cols f) >=? ofNat (cols f))%num = true).
  { unfold geb, ofNat. rewrite leb_ofZ. apply Z.leb_refl. }
  rewrite G. destruct (isContinuous f); cbn [andb].
  - assert (Z0 : clampColumnIndex f zero = zero).
    { change zero with (ofNat 0). apply clampColumnIndex_inside. lia. }
    now rewrite Z0.
  - rewrite clampColumnIndex_cols. unfold ofNat, one. rewrite sub_ofZ.
    do 3 f_equal. f_equal. lia.
Qed.

Lemma east_of_the_last_column_witness :
  getFourSurroundingIndexes globeField (ofQ (3 # 2)) zero
  = (ofNat 1, zero, clampRowIndex globeField (floor zero),
     clampRowIndex globeField (clampRowIndex globeField (floor zero) + one)%num).
Proof.
  apply (east_of_the_last_column globeField (ofQ (3 # 2)) zero).
  - cbn. lia.
  - by_evaluation.
Defined.

(** ** An undefined cell counts as a value *)

Lemma item_at_NaN : forall (row : Row), item_at row NaN = Undefined.
Proof. reflexivity. Qed.

Lemma clampColumnIndex_no_column : forall f a,
  cols f = 0%nat -> is_nan a = false ->
  forall row : Row, row = [] -> item_at row (clampColumnIndex f (floor a))
                                = Undefined.
Proof.
  intros f a Hc Ha row ->. unfold clampColumnIndex. rewrite Hc.
  destruct (floor_cases a Ha) as [E | [E | [z E]]]; rewrite E;
    try reflexivity.
  unfold gtb, ofNat, one, zero. rewrite sub_ofZ, !ltb_ofZ.
  change (Z.of_nat 0 - 1)%Z with (-1)%Z.
  destruct (Z.ltb_spec (-1) z).
  - reflexivity.
  - destruct (Z.ltb_spec z 0); [reflexivity | lia].
Qed.

(** X24.  [hasValueAt] tests [value !== null], and [undefined] passes the
    test.  On a constructed field, at a point inside [contains] whose
    decimal row index is not [NaN], [valueAt] returns [undefined] and
    [hasValueAt] returns true when the field has no column, and when the
    decimal column index is [NaN]. *)
Theorem undefined_cell_counts_as_value : forall o f lon lat,
  Field_new o = Ok f ->
  contains f lon lat = true ->
  is_nan (snd (getDecimalIndexes f lon lat)) = false ->
  cols f = 0%nat \/ is_nan (fst (getDecimalIndexes f lon lat)) = true ->
  valueAt f lon lat = Ok Undefined /\ hasValueAt f lon lat = Ok true.
Proof.
  intros o f lon lat Hnew Hin Hj Hcase.
  assert (V : valueAt f lon lat = Ok Undefined).
  { unfold valueAt. rewrite Hin. cbn [negb]. cbv zeta.
    destruct (clampRowIndex_floor o f _ Hnew Hj) as [k [Hk ->]].
    destruct (grid_nth_row o f k Hnew Hk) as [row [N L]].
    unfold valueAtIndexes, grid_row. rewrite as_index_ofNat, N. f_equal.
    destruct Hcase as [Hc | Hi].
    - destruct (is_nan (fst (getDecimalIndexes f lon lat))) eqn:Hn.
      + destruct (fst (getDecimalIndexes f lon lat)); try discriminate Hn.
        reflexivity.
      + apply clampColumnIndex_no_column; [exact Hc | exact Hn|].
        assert (Ec : isContinuous f = false).
        { destruct (Field_new_grid o f Hnew) as [_ [C [_ [Ec _]]]].
          rewrite Ec, <- C, Hc. apply not_continuous_without_columns. }
        rewrite Ec, Hc in L. destruct row; [reflexivity | discriminate L].
    - destruct (fst (getDecimalIndexes f lon lat)); try discriminate Hi.
      reflexivity. }
  split; [exact V|]. unfold hasValueAt. rewrite V. reflexivity.
Qed.

Lemma undefined_cell_counts_as_value_witness :
  exists f, Field_new columnlessOptions = Ok f /\
            hasValueAt f (ofZ 1) (ofZ 1) = Ok true.
Proof.
  eexists. split; [vm_compute; reflexivity|].
  match goal with
  | |- hasValueAt ?f _ _ = _ =>
      assert (B : Field_new columnlessOptions = Ok f)
        by (vm_compute; reflexivity);
      apply (proj2 (undefined_cell_counts_as_value columnlessOptions f
                      (ofZ 1) (ofZ 1) B eq_refl eq_refl (or_introl eq_refl)))
  end.
Defined.

(** ** The colour index on a degenerate range *)

(** X25.  [indexFor] on a range with [min = max] divides by zero.  At
    [m = min] the quotient is [0 / 0] and the index is [NaN], whatever the
    scale.  On a scale of at least two colours the index is the last one
    for [m > min] (the quotient is [+Infinity], which the clamp brings
    back) and 0 for [m < min]. *)
Theorem indexFor_on_a_degenerate_range : forall a b cs,
  indexFor (Fin b) (Fin b) (Fin b) cs = NaN /\
  ((2 <= List.length cs)%nat -> (b < a)%Qc ->
   indexFor (Fin a) (Fin b) (Fin b) cs = (ofNat (List.length cs) - one)%num) /\
  ((2 <= List.length cs)%nat -> (a < b)%Qc ->
   indexFor (Fin a) (Fin b) (Fin b) cs = zero).
Proof.
  intros a b cs. split; [|split].
  - unfold indexFor.
    assert (L : (ofNat (List.length cs) - one)%num
                = ofZ (Z.of_nat (List.length cs) - 1))
      by (unfold ofNat, one; apply sub_ofZ).
    rewrite L.
    assert (Z0 : sgn (b + - b)%Qc = Eq) by (unfold sgn; apply Qceq_alt; ring).
    unfold sub. cbn [neg add]. unfold div. rewrite Z0. reflexivity.
  - intros Hlen H. exact (proj1 (indexFor_degenerate_range a b cs Hlen) H).
  - intros Hlen H. exact (proj2 (indexFor_degenerate_range a b cs Hlen) H).
Qed.

Lemma indexFor_on_a_degenerate_range_witness :
  indexFor (ofZ 5) (ofZ 3) (ofZ 3) exampleScale
  = (ofNat (List.length exampleScale) - one)%num /\
  indexFor (ofZ 1) (ofZ 3) (ofZ 3) exampleScale = zero.
Proof.
  destruct (indexFor_on_a_degenerate_range (Q2Qc 5) (Q2Qc 3) exampleScale)
    as [_ [H _]].
  destruct (indexFor_on_a_degenerate_range (Q2Qc 1) (Q2Qc 3) exampleScale)
    as [_ [_ K]].
  split; [apply H | apply K]; first [reflexivity | cbn; lia].
Defined.

(** ** Cell centres of a wrapped field *)

(** X26.  In a wrapped field [longitudeAtX] brings the longitude of a
    cell centre back by one turn when it exceeds 180: a centre whose
    unwrapped longitude [xmin + deltaX / 2 + i * deltaX] lies in
    [(-180, 540]] is given in [(-180, 180]]. *)
Theorem longitudeAtX_wrapped_range : forall f i,
  wrappedX f = true ->
  (ofZ (-180) <? xmin f + deltaX f / ofZ 2 + i * deltaX f)%num = true ->
  (xmin f + deltaX f / ofZ 2 + i * deltaX f <=? ofZ 540)%num = true ->
  (ofZ (-180) <? longitudeAtX f i)%num = true /\
  (longitudeAtX f i <=? ofZ 180)%num = true.
Proof.
  intros f i Hw Hlo Hhi. unfold longitudeAtX. rewrite Hw. cbv zeta.
  set (raw := (xmin f + deltaX f / ofZ 2 + i * deltaX f)%num) in *.
  clearbody raw. destruct raw as [| | |x]; try discriminate Hlo;
    try discriminate Hhi.
  unfold ofZ in Hlo, Hhi. apply ltb_Fin in Hlo. apply leb_Fin in Hhi.
  unfold gtb. destruct (ltb (ofZ 180) (Fin x)) eqn:E; unfold ofZ in E.
  - apply ltb_Fin in E. unfold sub, ofZ. cbn [neg add].
    split; [apply ltb_Fin | apply leb_Fin];
      revert Hlo Hhi E; qc2q;
      change (inject_Z 360) with 360%Q; change (inject_Z 180) with 180%Q;
      change (inject_Z 540) with 540%Q;
      change (inject_Z (-180)) with (-180)%Q; intros; lra.
  - apply ltb_Fin_false in E.
    split; [apply ltb_Fin, Hlo | apply leb_Fin, E].
Qed.

Lemma longitudeAtX_wrapped_range_witness :
  (ofZ (-180) <? longitudeAtX globeField (ofZ 1))%num = true /\
  (longitudeAtX globeField (ofZ 1) <=? ofZ 180)%num = true.
Proof.
  apply (longitudeAtX_wrapped_range globeField (ofZ 1)); reflexivity.
Defined.


(** * The corners of the interpolation, index by index *)

(** The decimal indexes of a point [(lon, lat)] are
    [i = floorMod (lon - xmin) 360 / deltaX] and
    [j = (ymax - lat) / deltaY].  The statements below name the four corner
    cells by their indexes: the columns [floor i] and [eastColumn], the
    rows [floorRow] and [southRow]. *)

Lemma four_indexes : forall f i j,
  getFourSurroundingIndexes f i j
  = (floor i, eastColumn f (floor i), floorRow f j,
     southRow f (floorRow f j)).
Proof. reflexivity. Qed.



(** ** C3: interpolation is all or nothing *)



(** ** C9: the eastern boundary of a field that does not wrap *)

(** In a field whose [deltaY] is zero the decimal row index of every point
    is [NaN]: on the eastern boundary [contains] is true and the decimal
    column index is [cols], and [valueAt] and [hasValueAt] throw instead of
    returning the edge cell. *)
Lemma C9_counterexample :
  exists f, Field_new flatOptions = Ok f /\
    wrappedX f = false /\ isContinuous f = false /\
    contains f (xmax f) (ofZ 1) = true /\
    fst (getDecimalIndexes f (xmax f) (ofZ 1)) = ofNat (cols f) /\
    snd (getDecimalIndexes f (xmax f) (ofZ 1)) = NaN /\
    valueAt f (xmax f) (ofZ 1) = Throw TypeError /\
    hasValueAt f (xmax f) (ofZ 1) = Throw TypeError.
Proof.
  eexists. split; [vm_compute; reflexivity|].
  repeat split; by_evaluation.
Qed.

(** C9 (amended).  In a constructed field that is neither wrapped nor
    continuous, take a point on the eastern boundary, [lon = xmax], within
    the latitudes of the field, whose decimal column index equals [cols]
    and whose decimal row index [j] is not [NaN].  Then [contains] is true;
    [valueAt] returns the cell of the last column, [cols - 1], in the row of
    [floor j] brought into the rows of the grid, which is a row [k < rows];
    [hasValueAt] tells whether that cell is not [null], so it is true when
    the cell holds a vector; and [interpolatedValueAt] is the "no value"
    result: the floor column [cols] is not clamped, and no row has a cell
    in column [cols]. *)
Theorem C9_eastern_boundary : forall o f lat,
  Field_new o = Ok f ->
  wrappedX f = false ->
  isContinuous f = false ->
  (xmin f <=? xmax f)%num = true ->
  (if (deltaY f >=? zero)%num
   then (lat >=? ymin f)%num && (lat <=? ymax f)%num
   else (lat >=? ymax f)%num && (lat <=? ymin f)%num) = true ->
  (floorMod (xmax f - xmin f) (ofZ 360) / deltaX f)%num = ofNat (cols f) ->
  is_nan ((ymax f - lat) / deltaY f)%num = false ->
  let row := floorRow f ((ymax f - lat) / deltaY f)%num in
  let cell := corner f (ofNat (cols f) - one)%num row in
  contains f (xmax f) lat = true /\
  (exists k, (k < rows f)%nat /\ row = ofNat k) /\
  valueAt f (xmax f) lat = Ok cell /\
  hasValueAt f (xmax f) lat
  = Ok (match cell with Null => false | _ => true end) /\
  (forall w, cell = Val w -> hasValueAt f (xmax f) lat = Ok true) /\
  interpolatedValueAt f (xmax f) lat = None.
Proof.
  intros o f lat Hnew Hw Hc Hx Hlat Hi Hj row cell.
  assert (Hin : contains f (xmax f) lat = true).
  { unfold contains, getWrappedLongitudes. rewrite Hw. unfold geb.
    rewrite Hx, (leb_refl _ (leb_not_nan_r _ _ Hx)). exact Hlat. }
  assert (Hnone : interpolatedValueAt f (xmax f) lat = None).
  { unfold interpolatedValueAt. rewrite Hin. cbn [negb].
    unfold getDecimalIndexes. rewrite Hi.
    unfold interpolatePoint, getFourSurroundingIndexes.
    rewrite floor_ofNat. cbv zeta.
    unfold getFourSurroundingValues.
    destruct (grid_row f _) as [row'|] eqn:Er'; [|reflexivity].
    assert (L : List.length row' = cols f).
    { destruct (Field_new_grid o f Hnew) as [G [C _]].
      apply grid_row_In in Er'. rewrite G, Hc in Er'.
      apply buildRows_row_length in Er'. congruence. }
    rewrite <- L at 1. rewrite item_at_length. reflexivity. }
  destruct (clampRowIndex_floor o f _ Hnew Hj) as [k [Hk Ek]].
  change (clampRowIndex f (floor ((ymax f - lat) / deltaY f)%num))
    with row in Ek.
  destruct (grid_row_inside o f k Hnew Hk) as [r Er].
  assert (Hval : valueAt f (xmax f) lat = Ok cell).
  { unfold valueAt. rewrite Hin. cbn [negb]. cbv zeta.
    unfold getDecimalIndexes. cbn [fst snd].
    rewrite Hi, floor_ofNat, clampColumnIndex_cols.
    change (clampRowIndex f (floor ((ymax f - lat) / deltaY f)%num))
      with row.
    unfold valueAtIndexes, cell, corner. rewrite Ek, Er. reflexivity. }
  split; [exact Hin|]. split; [exists k; split; assumption|].
  split; [exact Hval|].
  assert (Hhas : hasValueAt f (xmax f) lat
                 = Ok (match cell with Null => false | _ => true end)).
  { unfold hasValueAt. rewrite Hval. reflexivity. }
  split; [exact Hhas|]. split.
  - intros w E. rewrite Hhas, E. reflexivity.
  - exact Hnone.
Qed.

Lemma C9_witness :
  valueAt exampleField (ofZ 2) (ofZ 1) = Ok (Val (Vector_new (ofZ (-1)) (ofZ 0)))
  /\ hasValueAt exampleField (ofZ 2) (ofZ 1) = Ok true
  /\ interpolatedValueAt exampleField (ofZ 2) (ofZ 1) = None.
Proof.
  destruct (C9_eastern_boundary exampleOptions exampleField (ofZ 1)
              exampleField_built eq_refl eq_refl eq_refl eq_refl
              ltac:(by_evaluation) eq_refl)
    as [_ [_ [Hv [_ [Hh Hi]]]]].
  split; [etransitivity; [exact Hv | by_evaluation]|].
  split; [exact (Hh (Vector_new (ofZ (-1)) (ofZ 0)) ltac:(by_evaluation))|].
  exact Hi.
Defined.

(** ** C2: the points that reproduce a stored cell *)

(** C2 (amended).  The interpolation reproduces the stored cell at the
    points whose decimal indexes are the integers [(i, j)] themselves, the
    nodes of the grid.  In a constructed field, for a row [j < rows]: when
    [(lon, lat)] is inside [contains], its decimal indexes are exactly
    [(i, j)], the cell of column [i], row [j] holds the vector [w], and the
    three other corners that the interpolation reads (the column east of
    [i], the row south of [j]) are non-empty with finite components, then
    [interpolatedValueAt (lon, lat)] returns exactly [w]: the weights are
    [1, 0, 0, 0]. *)
Theorem C2_exact_at_the_nodes : forall o f lon lat i j w g10 g01 g11,
  Field_new o = Ok f ->
  contains f lon lat = true ->
  (floorMod (lon - xmin f) (ofZ 360) / deltaX f)%num = ofNat i ->
  ((ymax f - lat) / deltaY f)%num = ofNat j ->
  (j < rows f)%nat ->
  let ci := eastColumn f (ofNat i) in
  let cj := southRow f (ofNat j) in
  corner f (ofNat i) (ofNat j) = Val w ->
  corner f ci (ofNat j) = Val g10 ->
  corner f (ofNat i) cj = Val g01 ->
  corner f ci cj = Val g11 ->
  is_finite (u g10) -> is_finite (v g10) ->
  is_finite (u g01) -> is_finite (v g01) ->
  is_finite (u g11) -> is_finite (v g11) ->
  interpolatedValueAt f lon lat = Some w.
Proof.
  intros o f lon lat i j w g10 g01 g11 Hnew Hin Hi Hj Hrow ci cj
    C00 C10 C01 C11 U1 V1 U2 V2 U3 V3.
  unfold interpolatedValueAt. rewrite Hin. cbn [negb].
  unfold getDecimalIndexes. rewrite Hi, Hj.
  unfold interpolatePoint. rewrite four_indexes.
  assert (Efj : floorRow f (ofNat j) = ofNat j).
  { unfold floorRow. rewrite floor_ofNat.
    exact (clampRowIndex_inside f j Hrow). }
  rewrite Efj, floor_ofNat. fold ci cj.
  rewrite getFourSurroundingValues_corners, C00, C10, C01, C11.
  rewrite !sub_diag_ofNat, bilinear_at_node by assumption.
  f_equal. symmetry. exact (corner_built o f _ _ w Hnew C00).
Qed.

Lemma C2_witness :
  interpolatedValueAt exampleField (ofZ 0) (ofZ 2)
  = Some (Vector_new (ofZ 1) (ofZ 0)).
Proof.
  refine (C2_exact_at_the_nodes exampleOptions exampleField
            (ofZ 0) (ofZ 2) 0 0
            (Vector_new (ofZ 1) (ofZ 0)) (Vector_new (ofZ 0) (ofZ 1))
            (Vector_new (ofZ 0) (ofZ (-1))) (Vector_new (ofZ (-1)) (ofZ 0))
            exampleField_built _ _ _ _ _ _ _ _ I I I I I I);
    first [by_evaluation | cbn; lia].
Defined.
